(** * privacy_policy_analyzer: sentence segmentation, keyword matching and
      recommendation aggregation

    A shallow embedding of [privacy_policy_analyzer.py].  A Python [str] is a
    sequence of Unicode code points; it is modelled as a list of code points
    ([N]).  The three core functions [split_sentences], [analyze_policy] and
    [get_recommendations] are pure: they read their arguments and local
    tables only, so they are embedded as Rocq functions. *)

From Stdlib Require Import List NArith Bool Lia String Ascii.
From stdpp Require Import base list gmap sets.
Import ListNotations.

Local Open Scope N_scope.

(** ** Strings *)

Definition char := N.
Definition str := list char.

(** A literal of the source that only holds ASCII characters. *)
Definition codes (s : string) : str := map N_of_ascii (list_ascii_of_string s).

(** U+2011, the non-breaking hyphen that two recommendation strings of the
    source contain. *)
Definition nb_hyphen : char := 8209.

(** [str.isspace] on one code point, which is also what [\s] matches in a
    [str] pattern of [re]: the ASCII controls 9..13 and 28..31, the space, and
    the Unicode white space U+0085, U+00A0, U+1680, U+2000..U+200A, U+2028,
    U+2029, U+202F, U+205F, U+3000. *)
Definition isspace (c : char) : bool :=
  ((9 <=? c) && (c <=? 13)) || ((28 <=? c) && (c <=? 32))
  || (c =? 133) || (c =? 160) || (c =? 5760)
  || ((8192 <=? c) && (c <=? 8202))
  || (c =? 8232) || (c =? 8233) || (c =? 8239) || (c =? 8287) || (c =? 12288).

Definition space : char := 32.

(** The character class [[.!?]]. *)
Definition is_terminator (c : char) : bool :=
  (c =? 46) || (c =? 33) || (c =? 63).

(** The character class [[A-Z]]. *)
Definition is_upper (c : char) : bool := (65 <=? c) && (c <=? 90).

(** [s.lstrip()], [s.rstrip()] and [s.strip()] without argument. *)
Fixpoint lstrip (s : str) : str :=
  match s with
  | [] => []
  | c :: s' => if isspace c then lstrip s' else s
  end.

Definition rstrip (s : str) : str := rev (lstrip (rev s)).

Definition strip (s : str) : str := rstrip (lstrip s).

(** Truth value of a string: [if s]. *)
Definition truthy {A} (l : list A) : bool :=
  match l with [] => false | _ :: _ => true end.

(** ** The two regular expressions

    A pattern is modelled by what it matches at one position of the subject:
    given the text before the position (nearest character first) and the text
    from the position on, the length of the match that starts there, if any.
    Neither pattern of the source matches the empty string. *)

Definition matcher := str -> str -> option nat.

(** Length of the run of white space a string starts with. *)
Fixpoint ws_run (s : str) : nat :=
  match s with
  | [] => O
  | c :: s' => if isspace c then S (ws_run s') else O
  end.

(** [\s+]: greedy, so the whole run. *)
Definition whitespace_run : matcher := fun _ s =>
  match ws_run s with
  | O => None
  | n => Some n
  end.

(** [(?<=[.!?])\s+(?=[A-Z])].  The look-behind reads the character before
    the position.  [\s+] first takes the whole run; the look-ahead then wants
    a letter of [A-Z] after it.  Giving back part of the run cannot help: the
    character after a shorter run is white space. *)
Definition sentence_endings : matcher := fun before s =>
  match before with
  | p :: _ =>
      if is_terminator p then
        match ws_run s with
        | O => None
        | n =>
            match nth_error s n with
            | Some u => if is_upper u then Some n else None
            | None => None
            end
        end
      else None
  | [] => None
  end.

(** [re.sub(pattern, repl, s)]: scan from the left, replace every match by
    [repl], resume after it.  [skip] counts the characters of the current
    match that are still to be passed over. *)
Fixpoint sub_from (m : matcher) (repl before : str) (skip : nat) (s : str) : str :=
  match s with
  | [] => []
  | c :: rest =>
      match skip with
      | S k => sub_from m repl (c :: before) k rest
      | O =>
          match m before s with
          | Some (S k) => repl ++ sub_from m repl (c :: before) k rest
          | _ => c :: sub_from m repl (c :: before) O rest
          end
      end
  end.

Definition re_sub (m : matcher) (repl s : str) : str := sub_from m repl [] O s.

(** Adds a character in front of the piece being read. *)
Definition push (c : char) (pieces : list str) : list str :=
  match pieces with
  | [] => [[c]]
  | p :: ps => (c :: p) :: ps
  end.

(** [pattern.split(s)]: the pieces of [s] between the matches, in order.  The
    head of the result is the piece that starts at the current position. *)
Fixpoint split_from (m : matcher) (before : str) (skip : nat) (s : str) : list str :=
  match s with
  | [] => [[]]
  | c :: rest =>
      match skip with
      | S k => split_from m (c :: before) k rest
      | O =>
          match m before s with
          | Some (S k) => [] :: split_from m (c :: before) k rest
          | _ => push c (split_from m (c :: before) O rest)
          end
      end
  end.

Definition re_split (m : matcher) (s : str) : list str := split_from m [] O s.

(** ** split_sentences *)

(** [re.sub(r"\s+", " ", s)] *)
Definition collapse (s : str) : str := re_sub whitespace_run [space] s.

(** [cleaned = re.sub(r"\s+", " ", text.strip())] *)
Definition cleaned (text : str) : str := collapse (strip text).

Definition split_sentences (text : str) : list str :=
  let sentences := re_split sentence_endings (cleaned text) in
  map strip (List.filter (fun s => truthy (strip s)) sentences).

(** ** analyze_policy *)

(** A [Dict[str, V]] in insertion order, which is the order [items()] yields;
    the keys of a dictionary are pairwise distinct. *)
Definition dict (V : Type) := list (str * V).

Definition keys {V} (d : dict V) : list str := map fst d.

(** [s.startswith(p)] *)
Fixpoint startswith (s p : str) : bool :=
  match p, s with
  | [], _ => true
  | _ :: _, [] => false
  | a :: p', b :: s' => (a =? b) && startswith s' p'
  end.

(** [kw in s] on strings: [kw] occurs somewhere in [s]. *)
Fixpoint str_in (kw s : str) : bool :=
  startswith s kw
  || match s with
     | [] => false
     | _ :: s' => str_in kw s'
     end.

(** [[cat for cat, keywords in categories.items()
          if any(kw in lowered for kw in keywords)]] *)
Definition matched_categories (lowered : str) (categories : dict (list str)) : list str :=
  map fst
    (List.filter (fun entry => existsb (fun kw => str_in kw lowered) (snd entry))
       categories).

Section Matcher.

(** [str.lower]; its Unicode case tables belong to the Python runtime. *)
Variable lower : str -> str.

(** One turn of the loop over the sentences. *)
Definition analyze_step (categories : dict (list str))
    (results : list (str * list str)) (sentence : str) : list (str * list str) :=
  let lowered := lower sentence in
  let matched := matched_categories lowered categories in
  if truthy matched then results ++ [(sentence, matched)] else results.

Definition analyze_policy (text : str) (categories : dict (list str))
  : list (str * list str) :=
  fold_left (analyze_step categories) (split_sentences text) [].

End Matcher.

(** What [str.lower] does to a code point below 128. *)
Definition lower_ascii (c : char) : char := if is_upper c then c + 32 else c.

(** The part of [str.lower] the examples need: on a string of ASCII
    characters it lowers [A-Z] and leaves the rest. *)
Definition lowers_ascii (lower : str -> str) : Prop :=
  forall s, Forall (fun c => c < 128) s -> lower s = map lower_ascii s.

(** ** get_recommendations *)

(** [d.get(key, default)] *)
Fixpoint dict_get {V} (d : dict V) (key : str) (default : V) : V :=
  match d with
  | [] => default
  | (k, v) :: d' => if decide (k = key) then v else dict_get d' key default
  end.

Definition category_recommendations : dict (list str) :=
  [ (codes "Data Sharing",
      [ codes "Review the app's settings for data sharing or personalization. Opt out of sharing personal data with third"
          ++ [nb_hyphen] ++ codes "party partners whenever possible.";
        codes "Disable permissions for unnecessary sensors or data (e.g., contacts, photos) if they are not needed for the app's core functionality." ]);
    (codes "Data Selling",
      [ codes "Check whether the app offers an option to opt out of the sale of personal information. If so, enable it.";
        codes "Consider contacting the app developer or using a different service if the policy allows selling your data." ]);
    (codes "Advertising",
      [ codes "In your device settings, limit ad tracking or disable personalized ads (e.g., 'Limit Ad Tracking' on iOS or 'Opt out of Ads Personalization' on Android).";
        codes "Within the app, look for advertising preferences and opt out of targeted advertising." ]);
    (codes "Analytics & Tracking",
      [ codes "Disable analytics or usage tracking in the app's settings if available.";
        codes "Clear cookies and app data periodically to minimize tracking." ]);
    (codes "Personal Information",
      [ codes "Provide only the minimum personal information required for the app to function.";
        codes "Regularly review and update your privacy settings to restrict access to sensitive data." ]);
    (codes "Location",
      [ codes "Set location permissions to 'While Using the App' or 'Never' unless the app truly needs continuous location access.";
        codes "Disable precise location access if approximate location suffices for the app's functionality." ]);
    (codes "Retention",
      [ codes "If the policy indicates long data retention, consider periodically deleting your account or data within the app.";
        codes "Request account deletion or data export when you stop using the service." ]);
    (codes "Security",
      [ codes "Enable any available security features such as two"
          ++ [nb_hyphen] ++ codes "factor authentication (2FA) or passcodes within the app.";
        codes "Keep your device and apps updated to ensure you have the latest security patches." ]) ].

(** [for category in matched_categories:
       recs.extend(category_recommendations.get(category, []))] *)
Definition collect_recs (table : dict (list str)) (matched : list str) : list str :=
  fold_left (fun recs category => recs ++ dict_get table category []) matched [].

(** One turn of the deduplication loop on the pair [(seen, deduped)]. *)
Definition dedup_step (st : gset str * list str) (rec : str) : gset str * list str :=
  let '(seen, deduped) := st in
  if decide (rec ∈ seen) then st else ({[rec]} ∪ seen, deduped ++ [rec]).

Definition dedup_loop (recs : list str) : list str :=
  snd (fold_left dedup_step recs (∅, [])).

Definition get_recommendations (matched : list str) : list str :=
  let recs := collect_recs category_recommendations matched in
  dedup_loop recs.

(** ** main: the static category table and the glue between the two calls *)

Definition categories : dict (list str) :=
  [ (codes "Data Sharing",
      map codes ["share"; "third party"; "third-party"; "partner"; "vendor";
                 "affiliate"; "disclose"; "provide"]%string);
    (codes "Data Selling",
      map codes ["sell"; "sale"; "monetize"; "commercialize"]%string);
    (codes "Advertising",
      map codes ["advertising"; "advertisement"; "advertiser"; "marketing";
                 "promotional"]%string);
    (codes "Analytics & Tracking",
      map codes ["analytics"; "tracking"; "cookie"; "beacon"; "pixel"; "sdk"]%string);
    (codes "Personal Information",
      map codes ["personal information"; "personal data"; "pii";
                 "personally identifiable"; "sensitive information"]%string);
    (codes "Location",
      map codes ["location"; "geolocation"; "gps"]%string);
    (codes "Retention",
      map codes ["retain"; "retention"; "store"; "storage"; "keep"; "period";
                 "duration"]%string);
    (codes "Security",
      map codes ["security"; "protect"; "encryption"; "breach"]%string) ].

(** [if cat not in unique_categories: unique_categories.append(cat)] over
    every record and every category of it. *)
Definition unique_step (unique : list str) (cat : str) : list str :=
  if decide (cat ∈ unique) then unique else unique ++ [cat].

Definition unique_categories (results : list (str * list str)) : list str :=
  fold_left (fun unique record => fold_left unique_step (snd record) unique) results [].

(** The two values [main] prints for a text: the records and, when there is
    a record, the recommendations for the categories met. *)
Definition pipeline (lower : str -> str) (text : str) (cats : dict (list str))
  : list (str * list str) * list str :=
  let results := analyze_policy lower text cats in
  if truthy results
  then (results, get_recommendations (unique_categories results))
  else (results, []).

(** ** prompt_for_text *)

Definition newline : char := 10.

(** [s.lstrip(x)] and [s.rstrip(x)] for a one-character argument. *)
Fixpoint lstrip_char (x : char) (s : str) : str :=
  match s with
  | [] => []
  | c :: s' => if c =? x then lstrip_char x s' else s
  end.

Definition rstrip_char (x : char) (s : str) : str := rev (lstrip_char x (rev s)).

(** [sep.join(parts)] *)
Fixpoint join (sep : str) (parts : list str) : str :=
  match parts with
  | [] => []
  | [p] => p
  | p :: ps => p ++ sep ++ join sep ps
  end.

(** The loop of [prompt_for_text] over the lines that iterating [sys.stdin]
    yields: it stops at the first line that is blank and keeps the lines
    before it, without the line feed at their end. *)
Fixpoint read_lines (stdin : list str) : list str :=
  match stdin with
  | [] => []
  | line :: rest =>
      if truthy (strip line) then rstrip_char newline line :: read_lines rest
      else []
  end.

Definition prompt_for_text (stdin : list str) : str :=
  join [newline] (read_lines stdin).

(** ** main: what it prints *)

(** The digits of [str(i)]. *)
Fixpoint digits (u : Decimal.uint) : str :=
  match u with
  | Decimal.Nil => []
  | Decimal.D0 u => 48 :: digits u
  | Decimal.D1 u => 49 :: digits u
  | Decimal.D2 u => 50 :: digits u
  | Decimal.D3 u => 51 :: digits u
  | Decimal.D4 u => 52 :: digits u
  | Decimal.D5 u => 53 :: digits u
  | Decimal.D6 u => 54 :: digits u
  | Decimal.D7 u => 55 :: digits u
  | Decimal.D8 u => 56 :: digits u
  | Decimal.D9 u => 57 :: digits u
  end.

Definition str_of_nat (i : nat) : str := digits (Nat.to_uint i).

(** What [load_text_from_file] does with a path: it returns the text of the
    file, or raises [OSError], or raises something [main] does not catch (a
    file that is not UTF-8). *)
Inductive loaded : Type :=
| Loaded (text : str)
| RaisedOSError (e : str)
| RaisedOther.

(** The argument of one [print] of the loop over the records:
    [f"{i}. {sentence}\n   Categories: {cats}\n"]. *)
Definition record_line (i : nat) (record : str * list str) : str :=
  str_of_nat i ++ codes ". " ++ fst record ++ [newline]
  ++ codes "   Categories: " ++ join (codes ", ") (snd record) ++ [newline].

(** [for i, (sentence, matched) in enumerate(results, start=i): print(...)] *)
Fixpoint record_lines (i : nat) (results : list (str * list str)) : list str :=
  match results with
  | [] => []
  | record :: rest => record_line i record :: record_lines (S i) rest
  end.

(** The fixed messages. *)
Definition msg_none : str :=
  newline :: codes "No potentially sensitive practices were detected based on the current heuristics.".

Definition msg_found : str :=
  newline :: codes "Potential data privacy concerns detected:" ++ [newline].

Definition msg_recommended : str :=
  codes "Recommended actions to protect your data:" ++ [newline].

Definition msg_asked : str :=
  codes "Paste the privacy policy text. Enter a blank line to finish:" ++ [newline].

Definition msg_no_text : str := codes "No text provided. Exiting.".

(** The arguments of the [print] calls of [main] once it has a text, in
    order. *)
Definition report (lower : str -> str) (text : str) : list str :=
  let results := analyze_policy lower text categories in
  if negb (truthy results) then [msg_none]
  else
    let recommendations := get_recommendations (unique_categories results) in
    [msg_found]
    ++ record_lines 1 results
    ++ (if truthy recommendations then
          msg_recommended :: map (fun rec => codes "- " ++ rec) recommendations
        else []).

(** [main], given the value of [--file], what reading a path does and the
    lines of the standard input: the arguments of its [print] calls, or
    [None] when an exception leaves it. *)
Definition main (lower : str -> str) (file_path : option str)
    (load_text_from_file : str -> loaded) (stdin : list str) : option (list str) :=
  match file_path with
  | Some (c :: path) =>
      match load_text_from_file (c :: path) with
      | Loaded text => Some (report lower text)
      | RaisedOSError e => Some [codes "Error reading file: " ++ e]
      | RaisedOther => None
      end
  | _ =>
      let text := prompt_for_text stdin in
      if negb (truthy (strip text)) then Some [msg_asked; msg_no_text]
      else Some (msg_asked :: report lower text)
  end.

(** ** The variables of a run *)

(** The variables that the three functions and [main] assign, kept in one
    store that outlives the calls, as module-level variables would: a call
    finds in a variable what the call before left there. *)
Record store : Type := {
  st_results : list (str * list str);
  st_recs : list str;
  st_seen : gset str;
  st_deduped : list str;
  st_unique_categories : list str
}.

Definition set_results (x : list (str * list str)) (st : store) : store :=
  {| st_results := x; st_recs := st_recs st; st_seen := st_seen st;
     st_deduped := st_deduped st; st_unique_categories := st_unique_categories st |}.

Definition set_recs (x : list str) (st : store) : store :=
  {| st_results := st_results st; st_recs := x; st_seen := st_seen st;
     st_deduped := st_deduped st; st_unique_categories := st_unique_categories st |}.

Definition set_seen (x : gset str) (st : store) : store :=
  {| st_results := st_results st; st_recs := st_recs st; st_seen := x;
     st_deduped := st_deduped st; st_unique_categories := st_unique_categories st |}.

Definition set_deduped (x : list str) (st : store) : store :=
  {| st_results := st_results st; st_recs := st_recs st; st_seen := st_seen st;
     st_deduped := x; st_unique_categories := st_unique_categories st |}.

Definition set_unique_categories (x : list str) (st : store) : store :=
  {| st_results := st_results st; st_recs := st_recs st; st_seen := st_seen st;
     st_deduped := st_deduped st; st_unique_categories := x |}.

(** [analyze_policy] on the store: [results = []], then the loop that
    appends to [results]; the value returned is [results]. *)
Definition analyze_policy_in (lower : str -> str) (text : str)
    (categories : dict (list str)) (st : store) : store :=
  let st := set_results [] st in
  fold_left
    (fun st sentence =>
       set_results (analyze_step lower categories (st_results st) sentence) st)
    (split_sentences text) st.

(** [get_recommendations] on the store: [recs = []] and the loop that
    extends it, then [seen = set()], [deduped = []] and the loop over
    [recs]; the value returned is [deduped]. *)
Definition get_recommendations_in (matched : list str) (st : store) : store :=
  let st := set_recs [] st in
  let st :=
    fold_left
      (fun st category =>
         set_recs (st_recs st ++ dict_get category_recommendations category []) st)
      matched st in
  let st := set_seen ∅ st in
  let st := set_deduped [] st in
  fold_left
    (fun st rec =>
       if decide (rec ∈ st_seen st) then st
       else set_deduped (st_deduped st ++ [rec]) (set_seen ({[rec]} ∪ st_seen st) st))
    (st_recs st) st.

(** One run of the two calls as [main] makes them, from a store: the store
    it leaves, and the records and recommendations it has to print. *)
Definition run (lower : str -> str) (text : str) (categories : dict (list str))
    (st : store) : store * (list (str * list str) * list str) :=
  let st := analyze_policy_in lower text categories st in
  let results := st_results st in
  if truthy results then
    let st := set_unique_categories [] st in
    let st :=
      fold_left
        (fun st record =>
           fold_left
             (fun st cat =>
                set_unique_categories (unique_step (st_unique_categories st) cat) st)
             (snd record) st)
        results st in
    let st := get_recommendations_in (st_unique_categories st) st in
    (st, (results, st_deduped st))
  else (st, (results, [])).

(** * Vocabulary of the specification *)

(** ** White space *)

(** A string that does not start with white space. *)
Definition hd_ok (s : str) : Prop :=
  match s with
  | [] => True
  | c :: _ => isspace c = false
  end.

(** A string with no white space at either end. *)
Definition trimmed (s : str) : Prop := hd_ok s /\ hd_ok (rev s).

(** The characters of a string that are not white space, in order. *)
Definition nonws (s : str) : str := List.filter (fun c => negb (isspace c)) s.

(** A run of white space. *)
Definition all_space (ws : str) : Prop := Forall (fun c => isspace c = true) ws.

(** [Collapsed s t]: [t] is [s] with every maximal run of white space
    replaced by one space. *)
Inductive Collapsed : str -> str -> Prop :=
| Collapsed_nil : Collapsed [] []
| Collapsed_char c s t :
    isspace c = false -> Collapsed s t -> Collapsed (c :: s) (c :: t)
| Collapsed_run ws s t :
    ws <> [] -> all_space ws -> hd_ok s -> Collapsed s t ->
    Collapsed (ws ++ s) (space :: t).

(** A string whose only white space is single spaces. *)
Inductive Spaced : str -> Prop :=
| Spaced_nil : Spaced []
| Spaced_char c s : isspace c = false -> Spaced s -> Spaced (c :: s)
| Spaced_space s : hd_ok s -> Spaced s -> Spaced (space :: s).

(** ** Capitals *)

(** An uppercase letter, in the words of the specification.  Unicode has
    many besides [A-Z]; the capitals of Latin-1, U+00C0 to U+00D6 and U+00D8
    to U+00DE, are enough to tell the two apart. *)
Definition uppercase_letter (c : char) : bool :=
  is_upper c || ((192 <=? c) && (c <=? 214)) || ((216 <=? c) && (c <=? 222)).

(** ** Sentence boundaries *)

(** The text before a position ends with one of [. ! ?]. *)
Definition ends_sentence (l : str) : Prop :=
  exists l' p, l = l' ++ [p] /\ is_terminator p = true.

(** The text starts with a letter of [A-Z]. *)
Definition starts_upper (r : str) : Prop :=
  exists u r', r = u :: r' /\ is_upper u = true.

(** The position between [l] and [r] is a qualifying boundary: a sentence
    terminator, then one or more white space characters, then a capital. *)
Definition boundary (l r : str) : Prop :=
  ends_sentence l /\
  exists ws r', r = ws ++ r' /\ ws <> [] /\ all_space ws /\ starts_upper r'.

Definition no_boundary (s : str) : Prop :=
  forall l r, s = l ++ r -> ~ boundary l r.

(** [SplitAt s pieces]: [pieces] are the fragments of [s] cut at every
    qualifying boundary, the white space of the boundary dropped, the
    terminator left on the fragment before and the capital starting the
    fragment after. *)
Inductive SplitAt : str -> list str -> Prop :=
| SplitAt_whole s : no_boundary s -> SplitAt s [s]
| SplitAt_cut l ws r pieces :
    ends_sentence l -> ws <> [] -> all_space ws -> starts_upper r ->
    no_boundary l -> SplitAt r pieces ->
    SplitAt (l ++ ws ++ r) (l :: pieces).

(** The fragments put together again with one space between them. *)
Fixpoint join_space (pieces : list str) : str :=
  match pieces with
  | [] => []
  | [p] => p
  | p :: ps => p ++ space :: join_space ps
  end.

(** The same boundary seen from the scanner: [b] is the text before the
    position, nearest character first. *)
Definition ending (b r : str) : Prop :=
  (exists p b', b = p :: b' /\ is_terminator p = true) /\
  exists ws r', r = ws ++ r' /\ ws <> [] /\ all_space ws /\ starts_upper r'.

(** ** Keywords and records *)

(** [kw] occurs in [s]. *)
Definition substring (kw s : str) : Prop := exists pre post, s = pre ++ kw ++ post.

(** The record a sentence contributes to the result: none when no category
    matched. *)
Definition record_of (lower : str -> str) (categories : dict (list str))
    (sentence : str) : list (str * list str) :=
  let matched := matched_categories (lower sentence) categories in
  if truthy matched then [(sentence, matched)] else [].

(** ** Keeping first occurrences *)

(** The list with, of each distinct element, its first occurrence only. *)
Fixpoint keep_first (l : list str) : list str :=
  match l with
  | [] => []
  | x :: l' => x :: filter (fun y => y <> x) (keep_first l')
  end.

(** ** The examples *)

(** The text of the second example. *)
Definition example_gps : str := codes "Your GPS location is used to show nearby ads.".

(** A text with a capital that is not one of [A-Z] after a full stop:
    [Fin. École ouverte.] *)
Definition example_ecole : str := codes "Fin. " ++ [201] ++ codes "cole ouverte.".

(** * Properties *)

(** ** Characters *)

Ltac char_facts :=
  unfold isspace, is_upper, is_terminator, space in *;
  rewrite ?orb_true_iff, ?andb_true_iff, ?orb_false_iff, ?andb_false_iff,
    ?N.leb_le, ?N.eqb_eq, ?N.leb_gt, ?N.eqb_neq in *;
  lia.

Lemma is_upper_not_space c : is_upper c = true -> isspace c = false.
Proof. intros H. char_facts. Qed.

Lemma is_terminator_not_space c : is_terminator c = true -> isspace c = false.
Proof. intros H. char_facts. Qed.

Lemma isspace_space : isspace space = true.
Proof. reflexivity. Qed.

Lemma space_not_terminator c : isspace c = true -> is_terminator c = false.
Proof.
  intros H. destruct (is_terminator c) eqn:E; [|reflexivity].
  apply is_terminator_not_space in E. congruence.
Qed.

(** ** Stripping *)

Lemma lstrip_hd_ok s : hd_ok (lstrip s).
Proof.
  induction s as [|c s IH]; simpl; [exact I|].
  destruct (isspace c) eqn:E; [exact IH|exact E].
Qed.

Lemma lstrip_id s : hd_ok s -> lstrip s = s.
Proof. destruct s as [|c s]; simpl; [reflexivity|]. intros ->. reflexivity. Qed.

Lemma lstrip_all_space ws s : all_space ws -> lstrip (ws ++ s) = lstrip s.
Proof.
  induction 1 as [|c ws Hc _ IH]; simpl; [reflexivity|]. rewrite Hc. exact IH.
Qed.

Lemma lstrip_split s : exists ws, all_space ws /\ s = ws ++ lstrip s.
Proof.
  induction s as [|c s (ws & Hws & IH)]; simpl.
  - exists []. split; [constructor|reflexivity].
  - destruct (isspace c) eqn:E.
    + exists (c :: ws). split; [constructor; assumption|]. simpl. congruence.
    + exists []. split; [constructor|reflexivity].
Qed.

Lemma lstrip_snoc a c : isspace c = false -> lstrip (a ++ [c]) = lstrip a ++ [c].
Proof.
  intros Hc. induction a as [|x a IH]; simpl.
  - rewrite Hc. reflexivity.
  - destruct (isspace x); [exact IH|reflexivity].
Qed.

Lemma rstrip_id s : hd_ok (rev s) -> rstrip s = s.
Proof. intros H. unfold rstrip. rewrite lstrip_id by exact H. apply rev_involutive. Qed.

Lemma rstrip_hd_ok s : hd_ok s -> hd_ok (rstrip s).
Proof.
  destruct s as [|c s]; [intros _; exact I|]. simpl. intros Hc.
  unfold rstrip. simpl. rewrite lstrip_snoc by exact Hc.
  rewrite rev_app_distr. simpl. exact Hc.
Qed.

Lemma rstrip_split s : exists ws, all_space ws /\ s = rstrip s ++ ws.
Proof.
  destruct (lstrip_split (rev s)) as (ws & Hws & E).
  exists (rev ws). split.
  - apply Forall_rev. exact Hws.
  - unfold rstrip. rewrite <- rev_app_distr, <- E. symmetry. apply rev_involutive.
Qed.

Lemma strip_trimmed s : trimmed (strip s).
Proof.
  split.
  - apply rstrip_hd_ok, lstrip_hd_ok.
  - unfold strip, rstrip. rewrite rev_involutive. apply lstrip_hd_ok.
Qed.

Lemma strip_id s : trimmed s -> strip s = s.
Proof.
  intros [H1 H2]. unfold strip. rewrite lstrip_id by exact H1. apply rstrip_id, H2.
Qed.

Lemma strip_split s : exists wl wr, all_space wl /\ all_space wr /\ s = wl ++ strip s ++ wr.
Proof.
  destruct (lstrip_split s) as (wl & Hl & El).
  destruct (rstrip_split (lstrip s)) as (wr & Hr & Er).
  exists wl, wr. split; [exact Hl|]. split; [exact Hr|].
  unfold strip. rewrite <- Er. exact El.
Qed.

Lemma nonws_app a b : nonws (a ++ b) = nonws a ++ nonws b.
Proof. apply List.filter_app. Qed.

Lemma nonws_all_space ws : all_space ws -> nonws ws = [].
Proof.
  induction 1 as [|c ws Hc _ IH]; simpl; [reflexivity|]. rewrite Hc. exact IH.
Qed.

Lemma nonws_strip s : nonws (strip s) = nonws s.
Proof.
  destruct (strip_split s) as (wl & wr & Hl & Hr & E).
  rewrite E at 2. rewrite !nonws_app, (nonws_all_space wl), (nonws_all_space wr) by assumption.
  rewrite app_nil_r. reflexivity.
Qed.

Lemma hd_ok_nonempty_nonws s : hd_ok s -> s <> [] -> nonws s <> [].
Proof.
  destruct s as [|c s]; [congruence|]. simpl. intros -> _. discriminate.
Qed.

Lemma strip_nil : strip [] = [].
Proof. reflexivity. Qed.

(** ** Collapsing white space *)

Lemma sub_ws_before repl s : forall b b' k,
  sub_from whitespace_run repl b k s = sub_from whitespace_run repl b' k s.
Proof.
  induction s as [|c s IH]; intros b b' k; simpl; [reflexivity|].
  destruct k as [|k]; [|apply IH].
  unfold whitespace_run. destruct (ws_run (c :: s)) as [|n].
  - f_equal. apply IH.
  - f_equal. apply IH.
Qed.

Lemma sub_ws_skip repl s : forall b,
  sub_from whitespace_run repl b (ws_run s) s
  = sub_from whitespace_run repl b O (lstrip s).
Proof.
  induction s as [|c s IH]; intros b; simpl; [reflexivity|].
  destruct (isspace c) eqn:E; simpl.
  - rewrite IH. apply sub_ws_before.
  - unfold whitespace_run. simpl. rewrite E. reflexivity.
Qed.

Lemma collapse_nil : collapse [] = [].
Proof. reflexivity. Qed.

Lemma collapse_char c s : isspace c = false -> collapse (c :: s) = c :: collapse s.
Proof.
  intros E. unfold collapse, re_sub. simpl. unfold whitespace_run at 1. simpl.
  rewrite E. f_equal. apply sub_ws_before.
Qed.

Lemma collapse_space c s :
  isspace c = true -> collapse (c :: s) = space :: collapse (lstrip s).
Proof.
  intros E. unfold collapse, re_sub. simpl. unfold whitespace_run at 1. simpl.
  rewrite E. f_equal. rewrite sub_ws_skip. apply sub_ws_before.
Qed.

Lemma collapse_run ws s :
  ws <> [] -> all_space ws -> collapse (ws ++ s) = space :: collapse (lstrip s).
Proof.
  intros Hne Hws. destruct Hws as [|c ws Hc Hws]; [congruence|].
  simpl. rewrite collapse_space by exact Hc. rewrite lstrip_all_space by exact Hws.
  reflexivity.
Qed.

Lemma Collapsed_fun s t : Collapsed s t -> t = collapse s.
Proof.
  induction 1 as [|c s t Hc _ IH|ws s t Hne Hws Hs _ IH].
  - reflexivity.
  - rewrite collapse_char by exact Hc. congruence.
  - rewrite collapse_run, lstrip_id by assumption. congruence.
Qed.

Lemma lstrip_length s : (length (lstrip s) <= length s)%nat.
Proof.
  induction s as [|c s IH]; simpl; [lia|]. destruct (isspace c); simpl; lia.
Qed.

Lemma collapse_Collapsed s : Collapsed s (collapse s).
Proof.
  remember (length s) as n eqn:Hn. revert s Hn.
  induction n as [n IH] using lt_wf_ind. intros s Hn.
  destruct s as [|c s]; [constructor|].
  destruct (isspace c) eqn:E.
  - rewrite collapse_space by exact E.
    destruct (lstrip_split s) as (ws & Hws & Es).
    rewrite Es at 1. change (c :: ws ++ lstrip s) with ((c :: ws) ++ lstrip s).
    constructor; [discriminate|constructor; assumption|apply lstrip_hd_ok|].
    apply (IH (length (lstrip s))); [|reflexivity].
    subst n. simpl. pose proof (lstrip_length s). lia.
  - rewrite collapse_char by exact E. constructor; [exact E|].
    apply (IH (length s)); [subst n; simpl; lia|reflexivity].
Qed.

Lemma Collapsed_hd_ok s t : Collapsed s t -> hd_ok s -> hd_ok t.
Proof.
  destruct 1 as [|c s t Hc _|ws s t Hne Hws _ _]; simpl; intros H; try assumption.
  destruct Hws as [|c ws Hc _]; [congruence|]. simpl in H. congruence.
Qed.

Lemma Collapsed_Spaced s t : Collapsed s t -> Spaced t.
Proof.
  induction 1 as [|c s t Hc H IH|ws s t Hne Hws Hs H IH].
  - constructor.
  - constructor; assumption.
  - apply Spaced_space; [|exact IH]. exact (Collapsed_hd_ok _ _ H Hs).
Qed.

Lemma Spaced_collapse s : Spaced s -> collapse s = s.
Proof.
  induction 1 as [|c s Hc _ IH|s Hs _ IH].
  - reflexivity.
  - rewrite collapse_char by exact Hc. congruence.
  - rewrite collapse_space by apply isspace_space. rewrite lstrip_id by exact Hs. congruence.
Qed.

Lemma Spaced_app_inv a b : Spaced (a ++ b) -> Spaced a /\ Spaced b.
Proof.
  induction a as [|c a IH]; simpl; intros H.
  - split; [constructor|exact H].
  - inversion H as [|c' s' Hc Hs|s' Hs Hs']; subst.
    + destruct (IH Hs) as [Ha Hb]. split; [constructor; assumption|exact Hb].
    + destruct (IH Hs') as [Ha Hb]. split; [|exact Hb].
      apply Spaced_space; [|exact Ha]. destruct a; [exact I|exact Hs].
Qed.

Lemma Collapsed_nonws s t : Collapsed s t -> nonws t = nonws s.
Proof.
  induction 1 as [|c s t Hc _ IH|ws s t Hne Hws Hs _ IH].
  - reflexivity.
  - simpl. rewrite Hc. simpl. congruence.
  - rewrite (nonws_app ws s), (nonws_all_space ws) by exact Hws. simpl. exact IH.
Qed.


Lemma Collapsed_app a a' b b' :
  Collapsed a a' -> Collapsed b b' -> hd_ok b \/ hd_ok (rev a) ->
  Collapsed (a ++ b) (a' ++ b').
Proof.
  intros Ha Hb. induction Ha as [|c s t Hc _ IH|ws s t Hne Hws Hs _ IH]; intros Hor.
  - exact Hb.
  - simpl. constructor; [exact Hc|]. apply IH.
    destruct Hor as [H|H]; [left; exact H|right].
    simpl in H. destruct (rev s); [exact I|exact H].
  - rewrite <- app_assoc. simpl. constructor; try assumption.
    + destruct s as [|x s]; [|exact Hs]. simpl.
      destruct Hor as [H|H]; [exact H|]. exfalso.
      rewrite app_nil_r in H. destruct Hws as [|c ws Hc Hws]; [congruence|].
      simpl in H. destruct (rev ws) as [|y l] eqn:E; simpl in H; [congruence|].
      assert (Hy : In y (rev ws)) by (rewrite E; left; reflexivity).
      apply in_rev in Hy. rewrite Forall_forall in Hws.
      apply list_elem_of_In, Hws in Hy. congruence.
    + apply IH. destruct Hor as [H|H]; [left; exact H|right].
      rewrite rev_app_distr in H. destruct (rev s); [exact I|exact H].
Qed.

Lemma Collapsed_rev s t : Collapsed s t -> Collapsed (rev s) (rev t).
Proof.
  induction 1 as [|c s t Hc _ IH|ws s t Hne Hws Hs _ IH]; simpl.
  - constructor.
  - apply Collapsed_app; [exact IH| |left; exact Hc].
    constructor; [exact Hc|constructor].
  - rewrite rev_app_distr. apply Collapsed_app; [exact IH| |].
    + rewrite <- (app_nil_r (rev ws)). constructor; [| |exact I|constructor].
      * intros E. apply (f_equal (@rev char)) in E. rewrite rev_involutive in E. exact (Hne E).
      * apply Forall_rev. exact Hws.
    + right. rewrite rev_involutive. exact Hs.
Qed.

Lemma collapse_rev s : collapse (rev s) = rev (collapse s).
Proof. symmetry. apply Collapsed_fun, Collapsed_rev, collapse_Collapsed. Qed.

Lemma lstrip_collapse s : lstrip (collapse s) = collapse (lstrip s).
Proof.
  destruct s as [|c s]; [reflexivity|]. simpl lstrip at 2.
  destruct (isspace c) eqn:E.
  - rewrite collapse_space by exact E. change (lstrip (space :: ?x)) with (lstrip x).
    apply lstrip_id. apply (Collapsed_hd_ok (lstrip s)); [apply collapse_Collapsed|apply lstrip_hd_ok].
  - rewrite collapse_char by exact E. simpl. rewrite E. reflexivity.
Qed.

Lemma rstrip_collapse s : rstrip (collapse s) = collapse (rstrip s).
Proof.
  unfold rstrip. rewrite <- collapse_rev, lstrip_collapse, collapse_rev. reflexivity.
Qed.

(** Trimming and collapsing commute: the source trims first. *)
Lemma strip_collapse s : strip (collapse s) = collapse (strip s).
Proof. unfold strip. rewrite lstrip_collapse, rstrip_collapse. reflexivity. Qed.

Lemma cleaned_trimmed text : trimmed (cleaned text).
Proof. unfold cleaned. rewrite <- strip_collapse. apply strip_trimmed. Qed.

Lemma cleaned_Spaced text : Spaced (cleaned text).
Proof. apply (Collapsed_Spaced (strip text)), collapse_Collapsed. Qed.

Lemma nonws_cleaned text : nonws (cleaned text) = nonws text.
Proof.
  unfold cleaned. rewrite (Collapsed_nonws _ _ (collapse_Collapsed _)). apply nonws_strip.
Qed.

(** ** The sentence-ending pattern *)

Lemma starts_upper_hd_ok r : starts_upper r -> hd_ok r.
Proof. intros (u & r' & -> & Hu). simpl. apply is_upper_not_space, Hu. Qed.

Lemma ws_run_app ws r : all_space ws -> hd_ok r -> ws_run (ws ++ r) = length ws.
Proof.
  intros Hws Hr. induction Hws as [|c ws Hc _ IH]; simpl.
  - destruct r as [|x r]; simpl in *; [reflexivity|]. rewrite Hr. reflexivity.
  - rewrite Hc, IH. reflexivity.
Qed.

Lemma ws_run_split r :
  exists ws, all_space ws /\ r = ws ++ lstrip r /\ length ws = ws_run r.
Proof.
  induction r as [|c r (ws & Hws & Er & Hlen)]; simpl.
  - exists []. repeat split. constructor.
  - destruct (isspace c) eqn:E.
    + exists (c :: ws). repeat split; simpl; [constructor; assumption|congruence|congruence].
    + exists []. repeat split. constructor.
Qed.

Lemma se_complete p b ws r :
  is_terminator p = true -> ws <> [] -> all_space ws -> starts_upper r ->
  sentence_endings (p :: b) (ws ++ r) = Some (length ws).
Proof.
  intros Hp Hne Hws Hr. pose proof (starts_upper_hd_ok _ Hr) as Hok.
  destruct Hr as (u & r' & -> & Hu).
  unfold sentence_endings. rewrite Hp, ws_run_app by assumption.
  destruct (length ws) as [|k] eqn:E.
  - destruct ws; [congruence|discriminate].
  - rewrite <- E, nth_error_app2, Nat.sub_diag by lia. simpl. rewrite Hu. reflexivity.
Qed.

Lemma se_sound b r n :
  sentence_endings b r = Some n ->
  exists p b' ws r',
    b = p :: b' /\ is_terminator p = true /\ r = ws ++ r' /\ ws <> [] /\
    all_space ws /\ starts_upper r' /\ n = length ws.
Proof.
  unfold sentence_endings. destruct b as [|p b']; [discriminate|].
  destruct (is_terminator p) eqn:Hp; [|discriminate].
  destruct (ws_run_split r) as (ws & Hws & Er & Hlen).
  destruct (ws_run r) as [|k] eqn:Hk; [discriminate|].
  destruct (nth_error r (S k)) as [u|] eqn:Hn; [|discriminate].
  destruct (is_upper u) eqn:Hu; [|discriminate]. intros [= <-].
  exists p, b', ws, (lstrip r). repeat split; try assumption; try congruence.
  - intros ->. discriminate.
  - rewrite Er, nth_error_app2, Hlen, Nat.sub_diag in Hn by lia.
    destruct (lstrip r) as [|x r']; [discriminate|]. injection Hn as ->.
    exists u, r'. split; [reflexivity|exact Hu].
Qed.

Lemma se_ending b r n : sentence_endings b r = Some n -> ending b r.
Proof.
  intros H. destruct (se_sound _ _ _ H) as (p & b' & ws & r' & -> & Hp & -> & Hne & Hws & Hr & _).
  split; [exists p, b'; split; [reflexivity|exact Hp]|].
  exists ws, r'. repeat split; assumption.
Qed.

Lemma ending_se b r : ending b r -> exists k, sentence_endings b r = Some (S k).
Proof.
  intros [(p & b' & -> & Hp) (ws & r' & -> & Hne & Hws & Hr)].
  rewrite se_complete by assumption.
  destruct ws as [|c ws]; [congruence|]. exists (length ws). reflexivity.
Qed.

Lemma boundary_ending l r : boundary l r <-> ending (rev l) r.
Proof.
  unfold boundary, ending, ends_sentence. split; intros [H1 H2]; (split; [|exact H2]).
  - destruct H1 as (l' & p & -> & Hp). exists p, (rev l'). rewrite rev_app_distr. split; [reflexivity|exact Hp].
  - destruct H1 as (p & b' & E & Hp). exists (rev b'), p. split; [|exact Hp].
    rewrite <- (rev_involutive l), E. reflexivity.
Qed.

(** ** Splitting at the sentence endings *)

Lemma split_skip m ws rest : forall b,
  split_from m b (length ws) (ws ++ rest) = split_from m (rev ws ++ b) O rest.
Proof.
  induction ws as [|c ws IH]; intros b; simpl.
  - destruct rest; reflexivity.
  - rewrite IH, <- app_assoc. reflexivity.
Qed.

Lemma se_before b b' s :
  hd_error b = hd_error b' -> sentence_endings b s = sentence_endings b' s.
Proof.
  destruct b, b'; simpl; intros H; try discriminate; [reflexivity|].
  injection H as ->. reflexivity.
Qed.

Lemma split_se_before s : forall b b' k,
  hd_error b = hd_error b' ->
  split_from sentence_endings b k s = split_from sentence_endings b' k s.
Proof.
  induction s as [|c s IH]; intros b b' k H; simpl; [reflexivity|].
  destruct k as [|k]; [|apply IH; reflexivity].
  rewrite (se_before b b') by exact H.
  destruct (sentence_endings b' (c :: s)) as [[|n]|]; f_equal; apply IH; reflexivity.
Qed.

Lemma split_se_fresh b s :
  (forall p, hd_error b = Some p -> is_terminator p = false) ->
  split_from sentence_endings b O s = split_from sentence_endings [] O s.
Proof.
  intros H. destruct s as [|c s]; [reflexivity|]. simpl.
  assert (E : sentence_endings b (c :: s) = None).
  { unfold sentence_endings. destruct b as [|p b]; [reflexivity|].
    rewrite (H p) by reflexivity. reflexivity. }
  rewrite E. f_equal. apply split_se_before. reflexivity.
Qed.

Lemma hd_rev_all_space ws b x :
  all_space ws -> ws <> [] -> hd_error (rev ws ++ b) = Some x -> isspace x = true.
Proof.
  intros Hws Hne H. destruct (rev ws) as [|y l] eqn:E.
  - apply (f_equal (@rev char)) in E. rewrite rev_involutive in E. contradiction.
  - simpl in H. injection H as <-.
    assert (Hy : In y (rev ws)) by (rewrite E; left; reflexivity).
    apply in_rev in Hy. unfold all_space in Hws. rewrite Forall_forall in Hws.
    apply Hws, list_elem_of_In, Hy.
Qed.

(** Scanning [r] with [b] before it either finds no sentence ending, or a
    first one, after a piece [l]. *)
Lemma scan r : forall b,
  (split_from sentence_endings b O r = [r] /\
   forall l1 r1, r = l1 ++ r1 -> ~ ending (rev l1 ++ b) r1)
  \/
  (exists l ws r',
     r = l ++ ws ++ r' /\
     (exists p b', rev l ++ b = p :: b' /\ is_terminator p = true) /\
     ws <> [] /\ all_space ws /\ starts_upper r' /\
     (forall l1 r1, l = l1 ++ r1 -> r1 <> [] -> ~ ending (rev l1 ++ b) (r1 ++ ws ++ r')) /\
     split_from sentence_endings b O r = l :: split_from sentence_endings [] O r').
Proof.
  induction r as [|c rest IH]; intros b.
  - left. split; [reflexivity|].
    intros l1 r1 E [_ (ws & r' & -> & Hne & _)].
    symmetry in E. apply app_eq_nil in E as [_ E]. apply app_eq_nil in E as [E _].
    contradiction.
  - simpl split_from. destruct (sentence_endings b (c :: rest)) as [n|] eqn:Hse.
    + destruct (se_sound _ _ _ Hse) as (p & b' & ws & r' & -> & Hp & Er & Hne & Hws & Hr & ->).
      right. exists [], ws, r'.
      destruct ws as [|w ws]; [congruence|]. simpl in Er. injection Er as -> ->.
      split; [reflexivity|]. split; [exists p, b'; split; [reflexivity|exact Hp]|].
      split; [exact Hne|]. split; [exact Hws|]. split; [exact Hr|]. split.
      * intros l1 r1 E. symmetry in E. apply app_eq_nil in E as [_ ->]. congruence.
      * cbn [length]. rewrite split_skip. f_equal. apply split_se_fresh.
        intros x Hx. apply space_not_terminator.
        apply (hd_rev_all_space (w :: ws) (p :: b')); [exact Hws|exact Hne|].
        simpl. rewrite <- app_assoc. exact Hx.
    + destruct (IH (c :: b)) as [[E Hno]|(l & ws & r' & Er & Hend & Hne & Hws & Hr & Hfirst & E)].
      * left. rewrite E. split; [reflexivity|].
        intros l1 r1 E1 H. destruct l1 as [|x l1]; simpl in E1.
        -- subst r1. apply ending_se in H as [k Hk]. simpl in Hk. congruence.
        -- injection E1 as <- E1. apply (Hno l1 r1 E1).
           simpl in H. rewrite <- app_assoc in H. exact H.
      * right. exists (c :: l), ws, r'. split; [simpl; congruence|].
        split; [simpl; rewrite <- app_assoc; exact Hend|].
        split; [exact Hne|]. split; [exact Hws|]. split; [exact Hr|]. split.
        -- intros l1 r1 E1 Hr1 H. destruct l1 as [|x l1]; simpl in E1.
           ++ subst r1. simpl in H. rewrite <- Er in H.
              apply ending_se in H as [k Hk]. congruence.
           ++ injection E1 as <- E1. apply (Hfirst l1 r1 E1 Hr1).
              simpl in H. rewrite <- app_assoc in H. exact H.
        -- rewrite E. reflexivity.
Qed.

Lemma no_boundary_split s : no_boundary s -> re_split sentence_endings s = [s].
Proof.
  intros Hno. unfold re_split.
  destruct (scan s []) as [[E _]|(l & ws & r' & Er & Hend & Hne & Hws & Hr & _ & _)]; [exact E|].
  exfalso. apply (Hno l (ws ++ r') Er). apply boundary_ending.
  rewrite app_nil_r in Hend. split; [exact Hend|].
  exists ws, r'. repeat split; assumption.
Qed.

(** The pieces the pattern yields are the fragments between the qualifying
    boundaries. *)
Lemma re_split_SplitAt s : SplitAt s (re_split sentence_endings s).
Proof.
  remember (length s) as n eqn:Hn. revert s Hn.
  induction n as [n IH] using lt_wf_ind. intros s Hn. unfold re_split.
  destruct (scan s []) as [[E Hno]|(l & ws & r' & Er & Hend & Hne & Hws & Hr & Hfirst & E)].
  - rewrite E. constructor. intros l r Es Hb. apply (Hno l r Es).
    rewrite app_nil_r. apply boundary_ending, Hb.
  - rewrite E, Er. rewrite app_nil_r in Hend.
    assert (Hl : ends_sentence l).
    { destruct Hend as (p & b' & Ep & Hp). exists (rev b'), p. split; [|exact Hp].
      rewrite <- (rev_involutive l), Ep. reflexivity. }
    apply SplitAt_cut; try assumption.
    + intros l1 r1 El Hb. destruct Hb as [H1 (ws1 & r1' & -> & Hne1 & Hws1 & Hr1)].
      apply (Hfirst l1 (ws1 ++ r1') El).
      * destruct ws1; [congruence|discriminate].
      * rewrite app_nil_r. apply boundary_ending. split; [exact H1|].
        exists ws1, (r1' ++ ws ++ r'). rewrite <- app_assoc.
        repeat split; try assumption.
        destruct Hr1 as (u & r'' & -> & Hu). exists u, (r'' ++ ws ++ r').
        split; [reflexivity|exact Hu].
    + apply (IH (length r')); [|reflexivity].
      subst n s. rewrite !length_app. destruct ws; [congruence|simpl; lia].
Qed.

Lemma hd_ok_app_l x y : hd_ok (x ++ y) -> hd_ok x.
Proof. destruct x; [intros _; exact I|exact id]. Qed.

Lemma ends_sentence_nonempty l : ends_sentence l -> l <> [].
Proof. intros (l' & p & -> & _). destruct l'; discriminate. Qed.

Lemma ends_sentence_rev_hd_ok l : ends_sentence l -> hd_ok (rev l).
Proof.
  intros (l' & p & -> & Hp). rewrite rev_app_distr. simpl.
  apply is_terminator_not_space, Hp.
Qed.

Lemma starts_upper_nonempty r : starts_upper r -> r <> [].
Proof. intros (u & r' & -> & _). discriminate. Qed.

(** What the fragments of a trimmed, single-spaced text look like. *)
Lemma SplitAt_pieces s pieces :
  SplitAt s pieces -> s <> [] -> trimmed s -> Spaced s ->
  Forall (fun p => p <> [] /\ trimmed p /\ Spaced p /\ no_boundary p) pieces.
Proof.
  induction 1 as [s Hno|l ws r pieces Hl Hne Hws Hr Hno _ IH]; intros Hs [Ht1 Ht2] Hsp.
  - constructor; [|constructor]. repeat split; assumption.
  - apply Spaced_app_inv in Hsp as [Hsl Hsp]. apply Spaced_app_inv in Hsp as [_ Hsr].
    constructor.
    + split; [apply ends_sentence_nonempty, Hl|]. split; [|split; assumption].
      split; [exact (hd_ok_app_l _ _ Ht1)|apply ends_sentence_rev_hd_ok, Hl].
    + apply IH; [apply starts_upper_nonempty, Hr| |exact Hsr].
      split; [apply starts_upper_hd_ok, Hr|].
      rewrite !rev_app_distr, <- app_assoc in Ht2. exact (hd_ok_app_l _ _ Ht2).
Qed.

Lemma keep_trimmed pieces :
  Forall (fun p => p <> [] /\ trimmed p) pieces ->
  map strip (List.filter (fun s => truthy (strip s)) pieces) = pieces.
Proof.
  induction 1 as [|p pieces [Hne Ht] _ IH]; simpl; [reflexivity|].
  rewrite (strip_id p Ht). destruct p as [|c p]; [congruence|]. simpl.
  rewrite (strip_id (c :: p) Ht), IH. reflexivity.
Qed.

Lemma cleaned_pieces text :
  cleaned text <> [] ->
  Forall (fun p => p <> [] /\ trimmed p /\ Spaced p /\ no_boundary p)
    (re_split sentence_endings (cleaned text)).
Proof.
  intros Hne. apply (SplitAt_pieces (cleaned text)).
  - apply re_split_SplitAt.
  - exact Hne.
  - apply cleaned_trimmed.
  - apply cleaned_Spaced.
Qed.

(** On a text with something to read, the final trimming and filtering of
    [split_sentences] change nothing. *)
Lemma split_sentences_pieces text :
  cleaned text <> [] ->
  split_sentences text = re_split sentence_endings (cleaned text).
Proof.
  intros Hne. unfold split_sentences. apply keep_trimmed.
  eapply Forall_impl; [apply cleaned_pieces, Hne|].
  intros p (H1 & H2 & _). split; assumption.
Qed.

Lemma split_sentences_blank text : cleaned text = [] -> split_sentences text = [].
Proof. intros H. unfold split_sentences. rewrite H. reflexivity. Qed.

Lemma cleaned_nonempty text : nonws text <> [] <-> cleaned text <> [].
Proof.
  rewrite <- nonws_cleaned. split.
  - intros H E. rewrite E in H. apply H. reflexivity.
  - apply hd_ok_nonempty_nonws, cleaned_trimmed.
Qed.

(** ** Boundaries of the cleaned text come from boundaries of the text *)

Lemma boundary_extend x l r y : boundary l r -> boundary (x ++ l) (r ++ y).
Proof.
  intros [(l' & p & -> & Hp) (ws & r' & -> & Hne & Hws & (u & r'' & -> & Hu))]. split.
  - exists (x ++ l'), p. rewrite <- app_assoc. split; [reflexivity|exact Hp].
  - exists ws, ((u :: r'') ++ y). rewrite <- app_assoc. repeat split; try assumption.
    exists u, (r'' ++ y). split; [reflexivity|exact Hu].
Qed.

Lemma Collapsed_run_inv s ws r :
  Collapsed s (ws ++ r) -> ws <> [] -> all_space ws -> starts_upper r ->
  exists ws0 r0, s = ws0 ++ r0 /\ ws0 <> [] /\ all_space ws0 /\ starts_upper r0.
Proof.
  intros H Hne Hws Hr. destruct ws as [|w ws]; [congruence|].
  apply Forall_cons in Hws as [Hw Hws]. simpl in H.
  inversion H as [|c s1 t1 Hc H1|ws0 s1 t1 Hne0 Hws0 Hs1 H1]; subst; [congruence|].
  pose proof (Collapsed_hd_ok _ _ H1 Hs1) as Hok.
  destruct ws as [|w' ws].
  - destruct Hr as (u & r' & -> & Hu). simpl in H1.
    inversion H1 as [|c s2 t2 Hc H2|ws2 s2 t2 _ _ _ _]; subst.
    + exists ws0, (u :: s2). repeat split; try assumption.
      exists u, s2. split; [reflexivity|exact Hu].
    + discriminate.
  - apply Forall_cons in Hws as [Hw' _]. simpl in Hok. congruence.
Qed.

Lemma boundary_Collapsed s t :
  Collapsed s t -> forall l r, t = l ++ r -> boundary l r ->
  exists l0 r0, s = l0 ++ r0 /\ boundary l0 r0.
Proof.
  induction 1 as [|c s t Hc H IH|ws s t Hne Hws Hs H IH]; intros l r E Hb.
  - destruct Hb as [Hl _]. apply ends_sentence_nonempty in Hl.
    symmetry in E. apply app_eq_nil in E as [E _]. contradiction.
  - destruct l as [|x l].
    { destruct Hb as [Hl _]. apply ends_sentence_nonempty in Hl. contradiction. }
    simpl in E. injection E as <- ->.
    destruct l as [|y l].
    + destruct Hb as [Hl (ws & r' & -> & Hne & Hws & Hr)]. simpl in H.
      destruct (Collapsed_run_inv s ws r' H Hne Hws Hr) as (ws0 & r0 & -> & Hne0 & Hws0 & Hr0).
      exists [c], (ws0 ++ r0). split; [reflexivity|]. split; [exact Hl|].
      exists ws0, r0. repeat split; assumption.
    + assert (Hb' : boundary (y :: l) r).
      { destruct Hb as [(l' & p & El & Hp) H2]. split; [|exact H2].
        destruct l' as [|z l']; [discriminate|]. injection El as _ El.
        exists l', p. split; assumption. }
      destruct (IH (y :: l) r eq_refl Hb') as (l0 & r0 & -> & Hb0).
      exists (c :: l0), r0. split; [reflexivity|].
      apply (boundary_extend [c] l0 r0 []) in Hb0. rewrite app_nil_r in Hb0. exact Hb0.
  - destruct l as [|x l].
    { destruct Hb as [Hl _]. apply ends_sentence_nonempty in Hl. contradiction. }
    simpl in E. injection E as <- ->.
    destruct l as [|y l].
    + destruct Hb as [(l' & p & El & Hp) _].
      destruct l' as [|z l']; [|destruct l'; discriminate].
      injection El as <-. discriminate.
    + assert (Hb' : boundary (y :: l) r).
      { destruct Hb as [(l' & p & El & Hp) H2]. split; [|exact H2].
        destruct l' as [|z l']; [discriminate|]. injection El as _ El.
        exists l', p. split; assumption. }
      destruct (IH (y :: l) r eq_refl Hb') as (l0 & r0 & -> & Hb0).
      exists (ws ++ l0), r0. split; [rewrite app_assoc; reflexivity|].
      apply (boundary_extend ws l0 r0 []) in Hb0. rewrite app_nil_r in Hb0. exact Hb0.
Qed.

Lemma no_boundary_cleaned text : no_boundary text -> no_boundary (cleaned text).
Proof.
  intros Hno l r E Hb.
  destruct (boundary_Collapsed _ _ (collapse_Collapsed (strip text)) l r E Hb)
    as (l0 & r0 & E0 & Hb0).
  destruct (strip_split text) as (wl & wr & _ & _ & Et).
  apply (Hno (wl ++ l0) (r0 ++ wr)).
  - rewrite Et at 1. rewrite E0, <- !app_assoc. reflexivity.
  - apply boundary_extend, Hb0.
Qed.

Lemma split_from_nonempty m s : forall b k, split_from m b k s <> [].
Proof.
  induction s as [|c s IH]; intros b k; simpl; [discriminate|].
  destruct k as [|k]; [|apply IH].
  destruct (m b (c :: s)) as [[|n]|]; try discriminate;
    (specialize (IH (c :: b) O); destruct (split_from m (c :: b) O s); [congruence|discriminate]).
Qed.

(** Whether a text has a qualifying boundary can be computed. *)
Lemma no_boundary_iff s : no_boundary s <-> re_split sentence_endings s = [s].
Proof.
  split; [apply no_boundary_split|]. unfold re_split. intros E.
  destruct (scan s []) as [[_ Hno]|(l & ws & r' & _ & _ & _ & _ & _ & _ & E')].
  - intros l r Es Hb. apply (Hno l r Es). rewrite app_nil_r. apply boundary_ending, Hb.
  - rewrite E' in E. injection E as _ E. exfalso. exact (split_from_nonempty _ _ _ _ E).
Qed.

Lemma SplitAt_nonws s pieces : SplitAt s pieces -> nonws (concat pieces) = nonws s.
Proof.
  induction 1 as [s _|l ws r pieces _ _ Hws _ _ _ IH]; simpl.
  - rewrite app_nil_r. reflexivity.
  - rewrite !nonws_app, IH, (nonws_all_space ws Hws). reflexivity.
Qed.

Lemma has_nonws text : (exists c, c ∈ text /\ isspace c = false) <-> nonws text <> [].
Proof.
  split.
  - intros (c & Hin & Hc) E.
    assert (H : In c (nonws text)).
    { apply filter_In. split; [apply list_elem_of_In, Hin|]. rewrite Hc. reflexivity. }
    rewrite E in H. exact H.
  - intros H. destruct (nonws text) as [|c l] eqn:E; [congruence|].
    assert (Hc : In c (nonws text)) by (rewrite E; left; reflexivity).
    apply filter_In in Hc as [Hin Hc]. exists c. split; [apply list_elem_of_In, Hin|].
    destruct (isspace c); [discriminate|reflexivity].
Qed.

(** ** The fragments are determined by the text *)

Lemma run_eq ws ws' r r' :
  all_space ws -> all_space ws' -> starts_upper r -> starts_upper r' ->
  ws ++ r = ws' ++ r' -> ws = ws' /\ r = r'.
Proof.
  intros Hws Hws' Hr Hr' E. assert (Er : r = r').
  { apply (f_equal lstrip) in E. rewrite !lstrip_all_space in E by assumption.
    rewrite !lstrip_id in E by (apply starts_upper_hd_ok; assumption). exact E. }
  subst r'. split; [|reflexivity]. apply app_inv_tail in E. exact E.
Qed.

Lemma ends_sentence_suffix l d : ends_sentence (l ++ d) -> d <> [] -> ends_sentence d.
Proof.
  intros (l' & p & E & Hp) Hd. destruct d as [|x d] using rev_ind; [congruence|].
  rewrite app_assoc in E. apply app_inj_tail in E as [_ ->].
  exists d, p. split; [reflexivity|exact Hp].
Qed.

Lemma all_space_ends_sentence d : all_space d -> ends_sentence d -> False.
Proof.
  intros Hd (d' & p & -> & Hp). apply Forall_app in Hd as [_ Hd].
  apply Forall_cons in Hd as [Hs _]. apply is_terminator_not_space in Hp. congruence.
Qed.

Lemma split_cut l ws r :
  ends_sentence l -> ws <> [] -> all_space ws -> starts_upper r -> no_boundary l ->
  re_split sentence_endings (l ++ ws ++ r) = l :: re_split sentence_endings r.
Proof.
  intros Hl Hne Hws Hr Hno. unfold re_split.
  assert (Hb : boundary l (ws ++ r)).
  { split; [exact Hl|]. exists ws, r. repeat split; assumption. }
  destruct (scan (l ++ ws ++ r) [])
    as [[_ Hnone]|(l2 & ws2 & r2 & E & Hend & Hne2 & Hws2 & Hr2 & Hfirst & Es)].
  - exfalso. apply (Hnone l (ws ++ r) eq_refl). rewrite app_nil_r.
    apply boundary_ending, Hb.
  - rewrite Es. apply app_eq_inv in E as [(d & E1 & E2)|(d & E1 & E2)].
    + destruct d as [|x d].
      * rewrite app_nil_r in E1. simpl in E2.
        destruct (run_eq _ _ _ _ Hws2 Hws Hr2 Hr E2) as [_ ->]. rewrite E1. reflexivity.
      * exfalso. assert (Hd : ends_sentence (x :: d)).
        { apply (ends_sentence_suffix l2); [rewrite <- E1; exact Hl|discriminate]. }
        apply app_eq_inv in E2 as [(k & Ea & Eb)|(k & Ea & Eb)].
        -- rewrite Ea in Hws2. apply Forall_app in Hws2 as [Hws2 _].
           exact (all_space_ends_sentence _ Hws2 Hd).
        -- destruct Hr2 as (u & r2' & -> & Hu). destruct k as [|y k].
           ++ rewrite app_nil_r in Ea. rewrite Ea in Hd.
              exact (all_space_ends_sentence _ Hws2 Hd).
           ++ simpl in Eb. injection Eb as <- _.
              apply (Hno l2 (ws2 ++ u :: k)); [rewrite E1, Ea; reflexivity|].
              split.
              ** destruct Hend as (p & b' & Ep & Hp). rewrite app_nil_r in Ep.
                 exists (rev b'), p. split; [|exact Hp].
                 rewrite <- (rev_involutive l2), Ep. reflexivity.
              ** exists ws2, (u :: k). repeat split; try assumption.
                 exists u, k. split; [reflexivity|exact Hu].
    + destruct d as [|x d].
      * rewrite app_nil_r in E1. simpl in E2.
        destruct (run_eq _ _ _ _ Hws Hws2 Hr Hr2 E2) as [_ ->]. rewrite E1. reflexivity.
      * exfalso. apply (Hfirst l (x :: d) E1); [discriminate|].
        rewrite app_nil_r, <- E2. apply boundary_ending, Hb.
Qed.

Lemma SplitAt_unique s pieces :
  SplitAt s pieces -> pieces = re_split sentence_endings s.
Proof.
  induction 1 as [s Hno|l ws r pieces Hl Hne Hws Hr Hno _ IH].
  - symmetry. apply no_boundary_split, Hno.
  - rewrite split_cut by assumption. congruence.
Qed.

Lemma Spaced_run ws r :
  Spaced (ws ++ r) -> ws <> [] -> all_space ws -> hd_ok r -> ws = [space].
Proof.
  intros Hsp Hne Hws Hr. destruct ws as [|w ws]; [congruence|].
  apply Forall_cons in Hws as [Hw Hws]. simpl in Hsp.
  inversion Hsp as [|c t Hc _|t Ht _]; subst; [congruence|].
  destruct ws as [|w' ws]; [reflexivity|].
  apply Forall_cons in Hws as [Hw' _]. simpl in Ht. congruence.
Qed.

(** In a single-spaced text the white space dropped at a boundary is one
    space: the text is its fragments with one space between them. *)
Lemma SplitAt_join s pieces : SplitAt s pieces -> Spaced s -> s = join_space pieces.
Proof.
  induction 1 as [s _|l ws r pieces _ Hne Hws Hr _ Hsplit IH]; intros Hsp; [reflexivity|].
  apply Spaced_app_inv in Hsp as [_ Hsp].
  rewrite (Spaced_run ws r Hsp Hne Hws (starts_upper_hd_ok _ Hr)).
  apply Spaced_app_inv in Hsp as [_ Hsp]. rewrite (IH Hsp) at 1.
  destruct Hsplit; reflexivity.
Qed.

Lemma cleaned_join text :
  cleaned text <> [] -> cleaned text = join_space (split_sentences text).
Proof.
  intros Hne. rewrite split_sentences_pieces by exact Hne.
  apply SplitAt_join; [apply re_split_SplitAt|apply cleaned_Spaced].
Qed.

(** ** split_sentences *)

(** C2, as the code has it, with a letter of [A-Z] for the uppercase letter.
    [split_sentences] collapses every run of white space of the text into
    one space and trims the ends; it cuts the normalized text exactly at the
    positions where one of [. ! ?] is followed by white space and then a
    letter of [A-Z], the terminator staying with the fragment before and the
    capital starting the next; it returns the trimmed non-empty fragments in
    order.  A text with a character that is not white space and with no such
    boundary gives exactly one sentence, the normalized text. *)
Theorem split_sentences_spec (text : str) :
  (exists collapsed,
     Collapsed text collapsed /\ cleaned text = strip collapsed) /\
  (exists pieces,
     SplitAt (cleaned text) pieces /\
     (forall pieces', SplitAt (cleaned text) pieces' -> pieces' = pieces) /\
     split_sentences text
     = map strip (List.filter (fun s => truthy (strip s)) pieces)) /\
  ((exists c, c ∈ text /\ isspace c = false) ->
   no_boundary text \/ no_boundary (cleaned text) ->
   split_sentences text = [cleaned text]).
Proof.
  split; [|split].
  - exists (collapse text). split; [apply collapse_Collapsed|].
    unfold cleaned. symmetry. apply strip_collapse.
  - exists (re_split sentence_endings (cleaned text)).
    split; [apply re_split_SplitAt|]. split; [apply SplitAt_unique|reflexivity].
  - intros Hc Hno. apply has_nonws, cleaned_nonempty in Hc.
    rewrite split_sentences_pieces by exact Hc.
    apply no_boundary_split. destruct Hno as [Hno|Hno]; [|exact Hno].
    apply no_boundary_cleaned, Hno.
Qed.

Lemma split_sentences_spec_witness :
  split_sentences (codes "  We keep  your data. we never sell it ")
  = [codes "We keep your data. we never sell it"].
Proof.
  apply (split_sentences_spec (codes "  We keep  your data. we never sell it ")).
  - exists 87. split; [|reflexivity]. vm_compute. repeat constructor.
  - left. apply no_boundary_iff. vm_compute. reflexivity.
Defined.

(** C2, as the specification words it, fails.  In [Fin. École ouverte.] a
    full stop is followed by a space and then by an uppercase letter; the
    text is already normalized, and it is returned as one sentence. *)
Lemma split_sentences_accented_capital :
  cleaned example_ecole = example_ecole /\
  (exists l ws u r,
     cleaned example_ecole = l ++ ws ++ u :: r /\
     ends_sentence l /\ ws <> [] /\ all_space ws /\ uppercase_letter u = true) /\
  split_sentences example_ecole = [example_ecole].
Proof.
  split; [vm_compute; reflexivity|]. split; [|vm_compute; reflexivity].
  exists (codes "Fin."), [space], 201, (codes "cole ouverte.").
  split; [vm_compute; reflexivity|]. split.
  - exists (codes "Fin"), 46. split; reflexivity.
  - split; [discriminate|]. split; [repeat constructor|reflexivity].
Qed.

(** C5. No sentence [split_sentences] returns is empty or made of white space
    only, and the sentences put end to end hold the characters of the
    normalized text that are not white space, all of them and in order: the
    normalized text is the sentences with one space between them. *)
Theorem split_sentences_preserves (text : str) :
  Forall (fun s => s <> [] /\ ~ all_space s) (split_sentences text) /\
  nonws (concat (split_sentences text)) = nonws (cleaned text) /\
  cleaned text = join_space (split_sentences text).
Proof.
  destruct (cleaned text) as [|c t] eqn:E.
  - rewrite split_sentences_blank by exact E. repeat split. constructor.
  - assert (Hne : cleaned text <> []) by (rewrite E; discriminate).
    rewrite <- E, <- cleaned_join by exact Hne.
    rewrite split_sentences_pieces by exact Hne. repeat split.
    + eapply Forall_impl; [apply cleaned_pieces, Hne|].
      intros p (H1 & [H2 _] & _). split; [exact H1|]. intros Hsp.
      apply (hd_ok_nonempty_nonws p H2 H1), nonws_all_space, Hsp.
    + apply SplitAt_nonws, re_split_SplitAt.
Qed.

(** C9. A sentence that [split_sentences] returned is split into itself. *)
Theorem split_sentences_idempotent (text s : str) :
  s ∈ split_sentences text -> split_sentences s = [s].
Proof.
  intros Hin. destruct (cleaned text) as [|c t] eqn:E.
  - rewrite split_sentences_blank in Hin by exact E. inversion Hin.
  - assert (Hne : cleaned text <> []) by (rewrite E; discriminate).
    rewrite split_sentences_pieces in Hin by exact Hne.
    pose proof (cleaned_pieces text Hne) as Hall. rewrite Forall_forall in Hall.
    destruct (Hall s Hin) as (H1 & H2 & H3 & H4).
    assert (Ec : cleaned s = s).
    { unfold cleaned. rewrite strip_id by exact H2. apply Spaced_collapse, H3. }
    rewrite split_sentences_pieces by (rewrite Ec; exact H1).
    rewrite Ec. apply no_boundary_split, H4.
Qed.

Lemma split_sentences_idempotent_witness :
  split_sentences (codes "We protect it.") = [codes "We protect it."].
Proof.
  apply (split_sentences_idempotent (codes " Hello  there.  We protect it. ")).
  vm_compute. repeat constructor.
Defined.

(** ** Keyword matching *)

Lemma startswith_spec p : forall s, startswith s p = true <-> exists post, s = p ++ post.
Proof.
  induction p as [|a p IH]; intros s.
  - split; [intros _; exists s; reflexivity|intros _; destruct s; reflexivity].
  - destruct s as [|b s]; simpl.
    + split; [discriminate|intros (post & E); discriminate].
    + rewrite andb_true_iff, N.eqb_eq, IH. split.
      * intros (-> & post & ->). exists post. reflexivity.
      * intros (post & E). injection E as -> ->. split; [reflexivity|exists post; reflexivity].
Qed.

Lemma str_in_spec kw s : str_in kw s = true <-> substring kw s.
Proof.
  induction s as [|c s IH]; cbn [str_in].
  - rewrite orb_false_r, startswith_spec. split.
    + intros (post & E). exists [], post. exact E.
    + intros (pre & post & E). symmetry in E. apply app_eq_nil in E as [-> E].
      exists post. symmetry. exact E.
  - rewrite orb_true_iff, startswith_spec, IH. split.
    + intros [(post & E)|(pre & post & E)].
      * exists [], post. exact E.
      * exists (c :: pre), post. simpl. congruence.
    + intros (pre & post & E). destruct pre as [|x pre].
      * left. exists post. exact E.
      * right. simpl in E. injection E as _ E. exists pre, post. exact E.
Qed.

Lemma any_keyword lowered keywords :
  existsb (fun kw => str_in kw lowered) keywords = true
  <-> exists kw, kw ∈ keywords /\ substring kw lowered.
Proof.
  rewrite existsb_exists. split; intros (kw & Hin & H); exists kw.
  - split; [apply list_elem_of_In, Hin|apply str_in_spec, H].
  - split; [apply list_elem_of_In, Hin|apply str_in_spec, H].
Qed.

Lemma matched_categories_elem lowered cats cat :
  cat ∈ matched_categories lowered cats
  <-> exists keywords,
        (cat, keywords) ∈ cats /\
        existsb (fun kw => str_in kw lowered) keywords = true.
Proof.
  unfold matched_categories. rewrite list_elem_of_In, in_map_iff. split.
  - intros ([c kws] & E & Hin). simpl in E. subst c.
    apply filter_In in Hin as [Hin H]. exists kws. split; [apply list_elem_of_In, Hin|exact H].
  - intros (kws & Hin & H). exists (cat, kws). split; [reflexivity|].
    apply filter_In. split; [apply list_elem_of_In, Hin|exact H].
Qed.

Lemma keys_functional {V} (d : dict V) k v v' :
  NoDup (keys d) -> (k, v) ∈ d -> (k, v') ∈ d -> v = v'.
Proof.
  unfold keys. induction d as [|[k0 v0] d IH]; simpl; intros Hnd H1 H2.
  - inversion H1.
  - apply NoDup_cons in Hnd as [Hk Hnd].
    apply list_elem_of_In in H1, H2. simpl in H1, H2.
    destruct H1 as [H1|H1], H2 as [H2|H2].
    + congruence.
    + exfalso. apply Hk. injection H1 as -> _.
      apply list_elem_of_In, in_map_iff. exists (k, v'). split; [reflexivity|exact H2].
    + exfalso. apply Hk. injection H2 as -> _.
      apply list_elem_of_In, in_map_iff. exists (k, v). split; [reflexivity|exact H1].
    + apply IH; [exact Hnd|apply list_elem_of_In, H1|apply list_elem_of_In, H2].
Qed.

Lemma matched_categories_sublist lowered cats :
  sublist (matched_categories lowered cats) (keys cats).
Proof.
  unfold matched_categories, keys. induction cats as [|[c kws] cats IH]; simpl.
  - constructor.
  - destruct (existsb _ kws); simpl; [apply sublist_skip, IH|apply sublist_cons, IH].
Qed.

(** ** The loop of analyze_policy *)

Lemma analyze_fold lower cats sentences : forall results,
  fold_left (analyze_step lower cats) sentences results
  = results ++ flat_map (record_of lower cats) sentences.
Proof.
  induction sentences as [|s sentences IH]; intros results; simpl.
  - rewrite app_nil_r. reflexivity.
  - rewrite IH. unfold analyze_step, record_of.
    destruct (truthy (matched_categories (lower s) cats)).
    + rewrite <- app_assoc. reflexivity.
    + reflexivity.
Qed.

Lemma analyze_policy_records lower text cats :
  analyze_policy lower text cats
  = flat_map (record_of lower cats) (split_sentences text).
Proof. unfold analyze_policy. rewrite analyze_fold. reflexivity. Qed.

Lemma analyze_policy_elem lower text cats sentence matched :
  (sentence, matched) ∈ analyze_policy lower text cats
  <-> sentence ∈ split_sentences text /\
      matched = matched_categories (lower sentence) cats /\ matched <> [].
Proof.
  rewrite analyze_policy_records, list_elem_of_In, in_flat_map. split.
  - intros (s & Hs & Hin). unfold record_of in Hin.
    destruct (matched_categories (lower s) cats) as [|m ms] eqn:E; simpl in Hin; [contradiction|].
    destruct Hin as [Hin|[]]. injection Hin as -> <-.
    split; [apply list_elem_of_In, Hs|]. split; [congruence|discriminate].
  - intros (Hs & -> & Hne). exists sentence. split; [apply list_elem_of_In, Hs|].
    unfold record_of. destruct (matched_categories (lower sentence) cats); [congruence|].
    left. reflexivity.
Qed.

(** ** analyze_policy *)

(** C1. For a sentence of the text and a category of the table, the records
    of [analyze_policy] list the category for the sentence exactly when one
    of its keywords occurs in the lowered sentence.  The categories computed
    for a sentence are those, in the order of the table, and they are what
    the record of the sentence carries. *)
Theorem matched_categories_spec (lower : str -> str) (text : str)
    (cats : dict (list str)) :
  NoDup (keys cats) ->
  (forall sentence cat keywords,
     (cat, keywords) ∈ cats ->
     (cat ∈ matched_categories (lower sentence) cats
      <-> exists kw, kw ∈ keywords /\ substring kw (lower sentence))) /\
  (forall sentence, sublist (matched_categories (lower sentence) cats) (keys cats)) /\
  (forall sentence matched,
     (sentence, matched) ∈ analyze_policy lower text cats ->
     sentence ∈ split_sentences text /\
     matched = matched_categories (lower sentence) cats) /\
  (forall sentence cat keywords,
     sentence ∈ split_sentences text ->
     (cat, keywords) ∈ cats ->
     ((exists matched,
         (sentence, matched) ∈ analyze_policy lower text cats /\ cat ∈ matched)
      <-> exists kw, kw ∈ keywords /\ substring kw (lower sentence))) /\
  (forall sentence matched,
     (sentence, matched) ∈ analyze_policy lower text cats ->
     sublist matched (keys cats)).
Proof.
  intros Hnd.
  assert (Hiff : forall sentence cat keywords,
            (cat, keywords) ∈ cats ->
            (cat ∈ matched_categories (lower sentence) cats
             <-> exists kw, kw ∈ keywords /\ substring kw (lower sentence))).
  { intros sentence cat keywords Hin.
    rewrite matched_categories_elem, <- any_keyword. split.
    - intros (kws & Hin' & H). rewrite (keys_functional cats cat keywords kws Hnd Hin Hin').
      exact H.
    - intros H. exists keywords. split; assumption. }
  split; [exact Hiff|]. split; [|split; [|split]].
  - intros sentence. apply matched_categories_sublist.
  - intros sentence matched H. apply analyze_policy_elem in H as (H1 & H2 & _).
    split; assumption.
  - intros sentence cat keywords Hs Hin. rewrite <- (Hiff sentence cat keywords Hin). split.
    + intros (matched & H & Hc). apply analyze_policy_elem in H as (_ & -> & _). exact Hc.
    + intros Hc. exists (matched_categories (lower sentence) cats). split; [|exact Hc].
      apply analyze_policy_elem. split; [exact Hs|]. split; [reflexivity|].
      intros E. rewrite E in Hc. inversion Hc.
  - intros sentence matched H. apply analyze_policy_elem in H as (_ & -> & _).
    apply matched_categories_sublist.
Qed.

Lemma keys_categories_NoDup : NoDup (keys categories).
Proof. apply (bool_decide_unpack _). vm_compute. exact I. Qed.

Lemma matched_categories_spec_witness :
  (forall sentence cat keywords,
     (cat, keywords) ∈ categories ->
     (cat ∈ matched_categories (map lower_ascii sentence) categories
      <-> exists kw, kw ∈ keywords /\ substring kw (map lower_ascii sentence))) /\
  (forall sentence,
     sublist (matched_categories (map lower_ascii sentence) categories) (keys categories)) /\
  (forall sentence matched,
     (sentence, matched) ∈ analyze_policy (map lower_ascii) example_gps categories ->
     sentence ∈ split_sentences example_gps /\
     matched = matched_categories (map lower_ascii sentence) categories) /\
  (forall sentence cat keywords,
     sentence ∈ split_sentences example_gps ->
     (cat, keywords) ∈ categories ->
     ((exists matched,
         (sentence, matched) ∈ analyze_policy (map lower_ascii) example_gps categories
         /\ cat ∈ matched)
      <-> exists kw, kw ∈ keywords /\ substring kw (map lower_ascii sentence))) /\
  (forall sentence matched,
     (sentence, matched) ∈ analyze_policy (map lower_ascii) example_gps categories ->
     sublist matched (keys categories)).
Proof.
  apply (matched_categories_spec (map lower_ascii) example_gps categories).
  apply (bool_decide_unpack _). vm_compute. exact I.
Defined.

(** C6. Every record of [analyze_policy] has at least one category, and a
    sentence of the text for which no category matched has no record: the
    records are those of the sentences with a match, in the order of the
    sentences. *)
Theorem analyze_policy_only_matches (lower : str -> str) (text : str)
    (cats : dict (list str)) :
  (forall sentence matched,
     (sentence, matched) ∈ analyze_policy lower text cats -> matched <> []) /\
  (forall sentence,
     sentence ∈ split_sentences text ->
     matched_categories (lower sentence) cats = [] ->
     forall matched, (sentence, matched) ∉ analyze_policy lower text cats) /\
  (forall sentence,
     sentence ∈ split_sentences text ->
     matched_categories (lower sentence) cats <> [] ->
     (sentence, matched_categories (lower sentence) cats)
       ∈ analyze_policy lower text cats) /\
  map fst (analyze_policy lower text cats)
  = List.filter (fun s => truthy (matched_categories (lower s) cats))
      (split_sentences text).
Proof.
  split; [|split; [|split]].
  - intros sentence matched H. apply analyze_policy_elem in H as (_ & _ & H). exact H.
  - intros sentence _ E matched H. apply analyze_policy_elem in H as (_ & H1 & H2).
    congruence.
  - intros sentence Hin Hne. apply analyze_policy_elem. repeat split; assumption.
  - rewrite analyze_policy_records.
    induction (split_sentences text) as [|s l IH]; simpl; [reflexivity|].
    rewrite map_app, IH. unfold record_of.
    destruct (truthy (matched_categories (lower s) cats)); reflexivity.
Qed.

(** ** Two runs *)

Lemma analyze_loop_results lower cats sentences : forall st,
  st_results
    (fold_left
       (fun st sentence =>
          set_results (analyze_step lower cats (st_results st) sentence) st)
       sentences st)
  = fold_left (analyze_step lower cats) sentences (st_results st).
Proof.
  induction sentences as [|s sentences IH]; intros st; simpl; [reflexivity|].
  rewrite IH. reflexivity.
Qed.

Lemma analyze_policy_in_results lower text cats st :
  st_results (analyze_policy_in lower text cats st) = analyze_policy lower text cats.
Proof. unfold analyze_policy_in. rewrite analyze_loop_results. reflexivity. Qed.

Lemma unique_inner_loop matched : forall st,
  st_unique_categories
    (fold_left
       (fun st cat =>
          set_unique_categories (unique_step (st_unique_categories st) cat) st)
       matched st)
  = fold_left unique_step matched (st_unique_categories st).
Proof.
  induction matched as [|c matched IH]; intros st; simpl; [reflexivity|].
  rewrite IH. reflexivity.
Qed.

Lemma unique_outer_loop (results : list (str * list str)) : forall st,
  st_unique_categories
    (fold_left
       (fun st record =>
          fold_left
            (fun st cat =>
               set_unique_categories (unique_step (st_unique_categories st) cat) st)
            (snd record) st)
       results st)
  = fold_left (fun unique record => fold_left unique_step (snd record) unique)
      results (st_unique_categories st).
Proof.
  induction results as [|r results IH]; intros st; simpl; [reflexivity|].
  rewrite IH, unique_inner_loop. reflexivity.
Qed.

Lemma recs_loop matched : forall st,
  st_recs
    (fold_left
       (fun st category =>
          set_recs (st_recs st ++ dict_get category_recommendations category []) st)
       matched st)
  = fold_left
      (fun recs category => recs ++ dict_get category_recommendations category [])
      matched (st_recs st).
Proof.
  induction matched as [|c matched IH]; intros st; simpl; [reflexivity|].
  rewrite IH. reflexivity.
Qed.

Lemma dedup_loop_in recs : forall st,
  st_deduped
    (fold_left
       (fun st rec =>
          if decide (rec ∈ st_seen st) then st
          else set_deduped (st_deduped st ++ [rec])
                 (set_seen ({[rec]} ∪ st_seen st) st))
       recs st)
  = snd (fold_left dedup_step recs (st_seen st, st_deduped st)).
Proof.
  induction recs as [|r recs IH]; intros st; simpl; [reflexivity|].
  rewrite IH. destruct (decide (r ∈ st_seen st)); reflexivity.
Qed.

Lemma get_recommendations_in_deduped matched st :
  st_deduped (get_recommendations_in matched st) = get_recommendations matched.
Proof.
  unfold get_recommendations_in. rewrite dedup_loop_in. cbn [st_seen st_deduped st_recs set_seen set_deduped].
  rewrite recs_loop. reflexivity.
Qed.

Lemma run_output lower text cats st :
  snd (run lower text cats st) = pipeline lower text cats.
Proof.
  unfold run, pipeline. rewrite analyze_policy_in_results.
  destruct (truthy (analyze_policy lower text cats)); [|reflexivity].
  cbn [snd]. rewrite get_recommendations_in_deduped, unique_outer_loop. reflexivity.
Qed.

(** C7. Two runs on the same text with the same tables print the same
    records and the same recommendations: a run that starts from the store
    the run before left gives what that run gave, and what a run gives does
    not depend on the store it starts from; it is what [analyze_policy] and
    [get_recommendations] return. *)
Theorem run_twice (lower : str -> str) (text : str) (cats : dict (list str))
    (st : store) :
  snd (run lower text cats (fst (run lower text cats st)))
  = snd (run lower text cats st) /\
  (forall st', snd (run lower text cats st') = snd (run lower text cats st)) /\
  fst (snd (run lower text cats st)) = analyze_policy lower text cats /\
  (analyze_policy lower text cats <> [] ->
   snd (snd (run lower text cats st))
   = get_recommendations (unique_categories (analyze_policy lower text cats))).
Proof.
  split; [|split; [|split]].
  - rewrite !run_output. reflexivity.
  - intros st'. rewrite !run_output. reflexivity.
  - rewrite run_output. unfold pipeline.
    destruct (truthy (analyze_policy lower text cats)); reflexivity.
  - intros Hne. rewrite run_output. unfold pipeline.
    destruct (analyze_policy lower text cats); [congruence|reflexivity].
Qed.

(** ** The second example *)

Lemma example_gps_ascii : Forall (fun c => c < 128) example_gps.
Proof. apply (bool_decide_unpack _). vm_compute. exact I. Qed.

(** C8, as the code has it.  On the text of the second example and the table
    of [main], [analyze_policy] returns one record, whose only category is
    Location: no keyword of Advertising occurs in the sentence. *)
Theorem example_gps_location_only (lower : str -> str) :
  lowers_ascii lower ->
  analyze_policy lower example_gps categories
  = [(example_gps, [codes "Location"])].
Proof.
  intros Hl. rewrite analyze_policy_records.
  change (split_sentences example_gps) with [example_gps].
  simpl. unfold record_of. rewrite (Hl example_gps example_gps_ascii).
  vm_compute. reflexivity.
Qed.

Lemma lower_ascii_lowers : lowers_ascii (map lower_ascii).
Proof. intros s _. reflexivity. Defined.

Lemma example_gps_location_only_witness :
  analyze_policy (map lower_ascii) example_gps categories
  = [(example_gps, [codes "Location"])].
Proof. apply (example_gps_location_only (map lower_ascii)). exact lower_ascii_lowers. Defined.

(** C8, as the spec has it, fails: the record of the example does not list
    Advertising next to Location. *)
Lemma example_gps_not_advertising :
  analyze_policy (map lower_ascii) example_gps categories
  = [(example_gps, [codes "Location"])] /\
  ~ (exists sentence matched,
       (sentence, matched) ∈ analyze_policy (map lower_ascii) example_gps categories /\
       codes "Location" ∈ matched /\ codes "Advertising" ∈ matched).
Proof.
  assert (E : analyze_policy (map lower_ascii) example_gps categories
              = [(example_gps, [codes "Location"])]) by (vm_compute; reflexivity).
  split; [exact E|]. rewrite E. intros (sentence & matched & Hin & _ & Hadv).
  apply list_elem_of_In in Hin. destruct Hin as [Hin|[]]. injection Hin as _ <-.
  apply list_elem_of_In in Hadv. destruct Hadv as [Hadv|[]]. vm_compute in Hadv. discriminate.
Qed.

(** ** Keeping first occurrences *)

Lemma filter_all (P : str -> Prop) `{!forall x, Decision (P x)} (l : list str) :
  (forall x, x ∈ l -> P x) -> filter P l = l.
Proof.
  induction l as [|x l IH]; intros Hall; [reflexivity|].
  rewrite filter_cons_True by (apply Hall; left).
  rewrite IH; [reflexivity|]. intros y Hy. apply Hall. right. exact Hy.
Qed.

Lemma filter_none (P : str -> Prop) `{!forall x, Decision (P x)} (l : list str) :
  (forall x, x ∈ l -> ~ P x) -> filter P l = [].
Proof.
  induction l as [|x l IH]; intros Hall; [reflexivity|].
  rewrite filter_cons_False by (apply Hall; left).
  apply IH. intros y Hy. apply Hall. right. exact Hy.
Qed.

Lemma keep_first_elem l x : x ∈ keep_first l <-> x ∈ l.
Proof.
  induction l as [|a l IH]; simpl; [reflexivity|].
  rewrite !elem_of_cons, list_elem_of_filter, IH.
  destruct (decide (x = a)); tauto.
Qed.

Lemma keep_first_NoDup l : NoDup (keep_first l).
Proof.
  induction l as [|a l IH]; simpl; [constructor|].
  apply NoDup_cons. split; [|apply NoDup_filter, IH].
  rewrite list_elem_of_filter. intros [H _]. apply H. reflexivity.
Qed.

Lemma keep_first_sublist l : sublist (keep_first l) l.
Proof.
  induction l as [|a l IH]; simpl; [constructor|].
  apply sublist_skip. etransitivity; [apply sublist_filter|exact IH].
Qed.

Lemma keep_first_app a b :
  keep_first (a ++ b) = keep_first a ++ filter (fun y => y ∉ a) (keep_first b).
Proof.
  induction a as [|x a IH]; simpl.
  - symmetry. apply filter_all. intros y _. apply not_elem_of_nil.
  - f_equal. rewrite IH, filter_app, list_filter_filter. f_equal.
    apply list_filter_iff. intros y. rewrite not_elem_of_cons. tauto.
Qed.

Lemma keep_first_snoc l x :
  keep_first (l ++ [x]) = if decide (x ∈ l) then keep_first l else keep_first l ++ [x].
Proof.
  rewrite keep_first_app. simpl. rewrite filter_nil. destruct (decide (x ∈ l)) as [H|H].
  - rewrite filter_cons_False by (intros H'; exact (H' H)). rewrite filter_nil. apply app_nil_r.
  - rewrite filter_cons_True by exact H. rewrite filter_nil. reflexivity.
Qed.

Lemma keep_first_filter (P : str -> Prop) `{!forall x, Decision (P x)} (l : list str) :
  filter P (keep_first l) = keep_first (filter P l).
Proof.
  induction l as [|x l IH]; simpl; [reflexivity|].
  destruct (decide (P x)) as [Hx|Hx].
  - rewrite !filter_cons_True by exact Hx. simpl. f_equal.
    rewrite <- IH, !list_filter_filter. apply list_filter_iff. tauto.
  - rewrite !filter_cons_False by exact Hx.
    rewrite list_filter_filter_l; [exact IH|].
    intros y Hy ->. contradiction.
Qed.

Lemma keep_first_id l : NoDup l -> keep_first l = l.
Proof.
  induction 1 as [|x l Hx _ IH]; simpl; [reflexivity|].
  rewrite IH. f_equal. apply filter_all. intros y Hy ->. contradiction.
Qed.

(** ** The loops of get_recommendations *)

Lemma collect_fold (table : dict (list str)) cats : forall recs,
  fold_left (fun recs category => recs ++ dict_get table category []) cats recs
  = recs ++ concat (map (fun c => dict_get table c []) cats).
Proof.
  induction cats as [|c cats IH]; intros recs; simpl.
  - rewrite app_nil_r. reflexivity.
  - rewrite IH, <- app_assoc. reflexivity.
Qed.

Lemma collect_recs_concat (table : dict (list str)) cats :
  collect_recs table cats = concat (map (fun c => dict_get table c []) cats).
Proof. unfold collect_recs. rewrite collect_fold. reflexivity. Qed.

Lemma dedup_fold recs : forall done (seen : gset str),
  (forall x, x ∈ seen <-> x ∈ done) ->
  snd (fold_left dedup_step recs (seen, keep_first done)) = keep_first (done ++ recs).
Proof.
  induction recs as [|r recs IH]; intros done seen Hs; simpl.
  - rewrite app_nil_r. reflexivity.
  - pose proof (keep_first_snoc done r) as Hsnoc.
    destruct (decide (r ∈ seen)) as [H|H].
    + destruct (decide (r ∈ done)) as [_|H']; [|exfalso; apply H', Hs, H].
      rewrite <- Hsnoc, (IH (done ++ [r])), <- app_assoc; [reflexivity|].
      intros x. rewrite elem_of_app, list_elem_of_singleton, Hs.
      split; [tauto|]. intros [Hx | ->]; [exact Hx|apply Hs, H].
    + destruct (decide (r ∈ done)) as [H'|_]; [exfalso; apply H, Hs, H'|].
      rewrite <- Hsnoc, (IH (done ++ [r])), <- app_assoc; [reflexivity|].
      intros x. rewrite elem_of_union, elem_of_singleton, elem_of_app,
        list_elem_of_singleton, Hs. tauto.
Qed.

Lemma dedup_loop_keep_first recs : dedup_loop recs = keep_first recs.
Proof.
  unfold dedup_loop. apply (dedup_fold recs [] ∅).
  intros x. rewrite elem_of_empty, elem_of_nil. reflexivity.
Qed.

Lemma dict_get_elem {V} (d : dict V) k v default :
  NoDup (keys d) -> (k, v) ∈ d -> dict_get d k default = v.
Proof.
  unfold keys. induction d as [|[k0 v0] d IH]; simpl; intros Hnd Hin.
  - inversion Hin.
  - apply NoDup_cons in Hnd as [Hk Hnd]. apply elem_of_cons in Hin as [Hin|Hin].
    + injection Hin as <- <-. rewrite decide_True by reflexivity. reflexivity.
    + destruct (decide (k0 = k)) as [->|_]; [|apply IH; assumption].
      exfalso. apply Hk. apply list_elem_of_In, in_map_iff. exists (k, v).
      split; [reflexivity|apply list_elem_of_In, Hin].
Qed.

Lemma dict_get_absent {V} (d : dict V) k default :
  k ∉ keys d -> dict_get d k default = default.
Proof.
  unfold keys. induction d as [|[k0 v0] d IH]; simpl; intros Hk; [reflexivity|].
  apply not_elem_of_cons in Hk as [Hne Hk].
  rewrite decide_False by congruence. apply IH, Hk.
Qed.

Lemma keys_category_recommendations_NoDup : NoDup (keys category_recommendations).
Proof. apply (bool_decide_unpack _). vm_compute. exact I. Qed.

(** ** get_recommendations *)

(** C3. For a sequence of category names without duplicates,
    [get_recommendations] looks each category up in the recommendation table,
    a category that is not in the table giving nothing; it puts the lists end
    to end in the order of the categories and keeps the first occurrence of
    each string.  No string is returned twice, and no category gives no
    recommendation. *)
Theorem get_recommendations_spec (cats : list str) :
  NoDup cats ->
  (forall c recs,
     (c, recs) ∈ category_recommendations ->
     dict_get category_recommendations c [] = recs) /\
  (forall c,
     c ∉ keys category_recommendations ->
     dict_get category_recommendations c [] = []) /\
  get_recommendations cats
  = keep_first (concat (map (fun c => dict_get category_recommendations c []) cats)) /\
  NoDup (get_recommendations cats) /\
  get_recommendations [] = [].
Proof.
  intros _. split; [|split; [|split; [|split]]].
  - intros c recs. apply dict_get_elem, keys_category_recommendations_NoDup.
  - intros c. apply dict_get_absent.
  - unfold get_recommendations. rewrite dedup_loop_keep_first, collect_recs_concat.
    reflexivity.
  - unfold get_recommendations. rewrite dedup_loop_keep_first. apply keep_first_NoDup.
  - reflexivity.
Qed.

Lemma get_recommendations_spec_witness :
  (forall c recs,
     (c, recs) ∈ category_recommendations ->
     dict_get category_recommendations c [] = recs) /\
  (forall c,
     c ∉ keys category_recommendations ->
     dict_get category_recommendations c [] = []) /\
  get_recommendations [codes "Security"; codes "Cookies"; codes "Location"]
  = keep_first
      (concat (map (fun c => dict_get category_recommendations c [])
                 [codes "Security"; codes "Cookies"; codes "Location"])) /\
  NoDup (get_recommendations [codes "Security"; codes "Cookies"; codes "Location"]) /\
  get_recommendations [] = [].
Proof.
  apply (get_recommendations_spec [codes "Security"; codes "Cookies"; codes "Location"]).
  apply (bool_decide_unpack _). vm_compute. exact I.
Defined.

Lemma filter_lookups (table : dict (list str)) (c : str) (l : list str) :
  filter (fun y => y ∉ dict_get table c [])
    (concat (map (fun c => dict_get table c []) l))
  = filter (fun y => y ∉ dict_get table c [])
      (concat (map (fun c => dict_get table c []) (filter (fun y => y <> c) l))).
Proof.
  induction l as [|x l IH]; simpl; [reflexivity|].
  rewrite filter_app, IH. destruct (decide (x = c)) as [->|Hne].
  - rewrite filter_cons_False by (intros H; apply H; reflexivity).
    rewrite filter_none; [reflexivity|]. intros y Hy H. exact (H Hy).
  - rewrite filter_cons_True by exact Hne. simpl. rewrite filter_app. reflexivity.
Qed.

Lemma keep_first_lookups (table : dict (list str)) (l : list str) :
  keep_first (concat (map (fun c => dict_get table c []) l))
  = keep_first (concat (map (fun c => dict_get table c []) (keep_first l))).
Proof.
  induction l as [|c l IH]; simpl; [reflexivity|].
  rewrite !keep_first_app. f_equal.
  rewrite IH, !(keep_first_filter (fun y => y ∉ dict_get table c [])). f_equal.
  apply filter_lookups.
Qed.

(** C10. Duplicates among the categories change nothing: the result is that
    of the sequence with the first occurrence of each category only. *)
Theorem get_recommendations_duplicates (cats : list str) :
  get_recommendations cats = get_recommendations (keep_first cats).
Proof.
  unfold get_recommendations. rewrite !dedup_loop_keep_first, !collect_recs_concat.
  apply keep_first_lookups.
Qed.

(** * Further properties *)

(** ** White space between words *)

Lemma collapse_between a ws b :
  ws <> [] -> all_space ws ->
  collapse (a ++ ws ++ b) = collapse (rstrip a) ++ space :: collapse (lstrip b).
Proof.
  intros Hne Hws.
  destruct (rstrip_split a) as (wa & Hwa & Ea).
  destruct (lstrip_split b) as (wb & Hwb & Eb).
  rewrite Ea at 1. rewrite Eb at 1.
  replace ((rstrip a ++ wa) ++ ws ++ wb ++ lstrip b)
    with (rstrip a ++ (wa ++ ws ++ wb) ++ lstrip b)
    by (rewrite <- !app_assoc; reflexivity).
  symmetry. apply Collapsed_fun. apply Collapsed_app.
  - apply collapse_Collapsed.
  - constructor.
    + intros E. apply app_eq_nil in E as [_ E]. apply app_eq_nil in E as [E _].
      contradiction.
    + apply Forall_app. split; [exact Hwa|]. apply Forall_app. split; assumption.
    + apply lstrip_hd_ok.
    + apply collapse_Collapsed.
  - right. unfold rstrip. rewrite rev_involutive. apply lstrip_hd_ok.
Qed.

Lemma split_sentences_cleaned text text' :
  cleaned text = cleaned text' -> split_sentences text = split_sentences text'.
Proof. unfold split_sentences. intros ->. reflexivity. Qed.

Lemma cleaned_idem text : cleaned (cleaned text) = cleaned text.
Proof.
  unfold cleaned at 1. rewrite strip_id by apply cleaned_trimmed.
  apply Spaced_collapse, cleaned_Spaced.
Qed.

(** X1. The kind and the amount of white space between two parts of a text
    do not matter: any run of white space there gives the same sentences. *)
Theorem split_sentences_any_white_space (a b ws ws' : str) :
  ws <> [] -> all_space ws -> ws' <> [] -> all_space ws' ->
  split_sentences (a ++ ws ++ b) = split_sentences (a ++ ws' ++ b).
Proof.
  intros Hne Hws Hne' Hws'. apply split_sentences_cleaned. unfold cleaned.
  rewrite <- !strip_collapse, !collapse_between by assumption. reflexivity.
Qed.

Lemma split_sentences_any_white_space_witness :
  split_sentences (codes "We keep data." ++ [10; 9; 32] ++ codes "We sell it.")
  = split_sentences (codes "We keep data." ++ [32] ++ codes "We sell it.").
Proof.
  apply split_sentences_any_white_space.
  - discriminate.
  - repeat constructor.
  - discriminate.
  - repeat constructor.
Defined.

(** X2. Joining the sentences of a text with single spaces and splitting
    again gives the same sentences. *)
Theorem split_join_split (text : str) :
  split_sentences (join_space (split_sentences text)) = split_sentences text.
Proof.
  destruct (cleaned text) as [|c t] eqn:E.
  - rewrite (split_sentences_blank text E). reflexivity.
  - assert (Hne : cleaned text <> []) by (rewrite E; discriminate).
    rewrite <- cleaned_join by exact Hne.
    apply split_sentences_cleaned, cleaned_idem.
Qed.

(** ** The shape of the sentences *)

Lemma SplitAt_head s p pieces :
  SplitAt s (p :: pieces) -> starts_upper s -> starts_upper p.
Proof.
  intros H Hs. inversion H as [s' Hno|l ws r ps Hl _ _ _ _ _]; subst; [exact Hs|].
  destruct Hs as (u & s' & E & Hu). destruct p as [|x p].
  - apply ends_sentence_nonempty in Hl. contradiction.
  - simpl in E. injection E as -> _. exists u, p. split; [reflexivity|exact Hu].
Qed.

Lemma SplitAt_shape s pieces :
  SplitAt s pieces ->
  (forall i p, pieces !! S i = Some p -> starts_upper p) /\
  (forall i p, pieces !! i = Some p -> is_Some (pieces !! S i) -> ends_sentence p).
Proof.
  induction 1 as [s Hno|l ws r pieces Hl Hne Hws Hr Hno Hsplit [IH1 IH2]].
  - split.
    + intros i p H. destruct i; discriminate.
    + intros i p _ [q H]. destruct i; discriminate.
  - split.
    + intros [|i] p H; simpl in H.
      * destruct pieces as [|q pieces]; [discriminate|]. injection H as ->.
        exact (SplitAt_head _ _ _ Hsplit Hr).
      * exact (IH1 i p H).
    + intros [|i] p H Hnext; simpl in H.
      * injection H as <-. exact Hl.
      * exact (IH2 i p H Hnext).
Qed.

(** X3. Every sentence is non-empty, has no white space at either end, has
    single spaces only and no boundary inside; every sentence but the first
    starts with a letter of [A-Z] and every sentence but the last ends with
    one of [. ! ?]. *)
Theorem sentences_shape (text : str) :
  Forall (fun s => s <> [] /\ trimmed s /\ Spaced s /\ no_boundary s)
    (split_sentences text) /\
  (forall i s, split_sentences text !! S i = Some s -> starts_upper s) /\
  (forall i s,
     split_sentences text !! i = Some s ->
     is_Some (split_sentences text !! S i) -> ends_sentence s).
Proof.
  destruct (cleaned text) as [|c t] eqn:E.
  - rewrite split_sentences_blank by exact E. split; [constructor|]. split.
    + intros i s H. discriminate.
    + intros i s H. discriminate.
  - assert (Hne : cleaned text <> []) by (rewrite E; discriminate).
    rewrite split_sentences_pieces by exact Hne.
    split; [apply cleaned_pieces, Hne|].
    apply (SplitAt_shape (cleaned text)), re_split_SplitAt.
Qed.

Lemma nonws_nil_all_space s : nonws s = [] -> all_space s.
Proof.
  induction s as [|c s IH]; simpl; intros H; [constructor|].
  destruct (isspace c) eqn:E; simpl in H; [|discriminate].
  constructor; [exact E|exact (IH H)].
Qed.

Lemma all_space_cleaned text : all_space text <-> cleaned text = [].
Proof.
  split.
  - intros H. destruct (cleaned text) as [|c t] eqn:E; [reflexivity|]. exfalso.
    assert (Hne : cleaned text <> []) by (rewrite E; discriminate).
    apply cleaned_nonempty in Hne. apply Hne, nonws_all_space, H.
  - intros E. apply nonws_nil_all_space. rewrite <- nonws_cleaned, E. reflexivity.
Qed.

(** X4. A text gives no sentence exactly when it is made of white space
    only (the empty text included), and then [analyze_policy] has no
    record. *)
Theorem no_sentence_iff_blank (text : str) :
  (split_sentences text = [] <-> all_space text) /\
  (all_space text ->
   forall lower cats, analyze_policy lower text cats = []).
Proof.
  assert (Hblank : all_space text -> split_sentences text = []).
  { intros H. apply split_sentences_blank, all_space_cleaned, H. }
  split; [split; [|exact Hblank]|].
  - intros H. apply all_space_cleaned.
    destruct (cleaned text) as [|c t] eqn:E; [reflexivity|]. exfalso.
    assert (Hne : cleaned text <> []) by (rewrite E; discriminate).
    rewrite split_sentences_pieces in H by exact Hne.
    exact (split_from_nonempty _ _ _ _ H).
  - intros H lower cats. rewrite analyze_policy_records, (Hblank H). reflexivity.
Qed.

Lemma join_space_substring pieces s : s ∈ pieces -> substring s (join_space pieces).
Proof.
  induction pieces as [|p ps IH]; intros Hin; [inversion Hin|].
  apply elem_of_cons in Hin as [->|Hin].
  - destruct ps as [|q ps].
    + exists [], []. simpl. rewrite app_nil_r. reflexivity.
    + exists [], (space :: join_space (q :: ps)). reflexivity.
  - destruct (IH Hin) as (pre & post & E). destruct ps as [|q ps]; [inversion Hin|].
    exists (p ++ space :: pre), post.
    change (join_space (p :: q :: ps)) with (p ++ space :: join_space (q :: ps)).
    rewrite E, <- app_assoc. reflexivity.
Qed.

(** X20. Every sentence, and so the sentence of every record, is a piece of
    the normalized text as it stands: nothing inside a sentence is changed
    or left out. *)
Theorem sentences_are_substrings (lower : str -> str) (text : str)
    (cats : dict (list str)) :
  Forall (fun s => substring s (cleaned text)) (split_sentences text) /\
  Forall (fun record => substring (fst record) (cleaned text))
    (analyze_policy lower text cats).
Proof.
  assert (H : forall s, s ∈ split_sentences text -> substring s (cleaned text)).
  { intros s Hs. destruct (cleaned text) as [|c t] eqn:E.
    - rewrite split_sentences_blank in Hs by exact E. inversion Hs.
    - assert (Hne : cleaned text <> []) by (rewrite E; discriminate).
      rewrite <- E, (cleaned_join text Hne). apply join_space_substring, Hs. }
  split.
  - apply Forall_forall. exact H.
  - apply Forall_forall. intros [s m] Hin. simpl.
    apply analyze_policy_elem in Hin as (Hs & _). exact (H s Hs).
Qed.

(** ** A text made of two parts *)

Lemma strip_around wl core wr :
  all_space wl -> all_space wr -> trimmed core -> core <> [] ->
  strip (wl ++ core ++ wr) = core.
Proof.
  intros Hl Hr [H1 H2] Hne. unfold strip. rewrite lstrip_all_space by exact Hl.
  rewrite lstrip_id by (destruct core; [congruence|exact H1]).
  unfold rstrip. rewrite rev_app_distr, lstrip_all_space by (apply Forall_rev, Hr).
  rewrite lstrip_id by exact H2. apply rev_involutive.
Qed.

Lemma Collapsed_starts s t : Collapsed s t -> starts_upper s -> starts_upper t.
Proof.
  intros H (u & s' & -> & Hu).
  inversion H as [|c s1 t1 Hc H1|ws s1 t1 Hne Hws Hs H1 E1]; subst.
  - exists u, t1. split; [reflexivity|exact Hu].
  - exfalso. destruct Hws as [|w ws Hw _]; [congruence|].
    simpl in E1. injection E1 as -> _. apply is_upper_not_space in Hu. congruence.
Qed.

Lemma Collapsed_ends s t : Collapsed s t -> ends_sentence s -> ends_sentence t.
Proof.
  intros H (l & p & -> & Hp). apply Collapsed_rev in H.
  rewrite rev_app_distr in H. simpl in H.
  inversion H as [|c s1 t1 Hc H1 E1 E2|ws s1 t1 Hne Hws Hs H1 E1 E2]; subst.
  - exists (rev t1), p. split; [|exact Hp].
    rewrite <- (rev_involutive t), <- E2. reflexivity.
  - exfalso. destruct Hws as [|w ws Hw _]; [congruence|].
    simpl in E1. injection E1 as -> _. apply is_terminator_not_space in Hp. congruence.
Qed.

Lemma cleaned_two_parts a ws b :
  ends_sentence (strip a) -> starts_upper (strip b) -> ws <> [] -> all_space ws ->
  cleaned (a ++ ws ++ b) = cleaned a ++ space :: cleaned b.
Proof.
  intros Ha Hb Hne Hws.
  destruct (strip_split a) as (wl & wr & Hwl & Hwr & Ea).
  destruct (strip_split b) as (wl' & wr' & Hwl' & Hwr' & Eb).
  assert (Et : a ++ ws ++ b
               = wl ++ (strip a ++ (wr ++ ws ++ wl') ++ strip b) ++ wr').
  { rewrite Ea at 1. rewrite Eb at 1. rewrite <- !app_assoc. reflexivity. }
  destruct (strip_trimmed a) as [Ha1 Ha2]. destruct (strip_trimmed b) as [Hb1 Hb2].
  pose proof (ends_sentence_nonempty _ Ha) as Hna.
  pose proof (starts_upper_nonempty _ Hb) as Hnb.
  unfold cleaned. rewrite Et, strip_around; try assumption.
  - symmetry. apply Collapsed_fun. apply Collapsed_app.
    + apply collapse_Collapsed.
    + constructor.
      * intros E. apply app_eq_nil in E as [_ E]. apply app_eq_nil in E as [E _].
        contradiction.
      * apply Forall_app. split; [exact Hwr|]. apply Forall_app. split; assumption.
      * exact Hb1.
      * apply collapse_Collapsed.
    + right. exact Ha2.
  - split.
    + destruct (strip a); [congruence|exact Ha1].
    + rewrite !rev_app_distr. destruct (rev (strip b)) eqn:E; [|exact Hb2].
      apply (f_equal (@rev char)) in E. rewrite rev_involutive in E. contradiction.
  - destruct (strip a); [congruence|discriminate].
Qed.

Lemma SplitAt_app x ws y ps qs :
  SplitAt x ps -> SplitAt y qs -> ends_sentence x -> starts_upper y ->
  ws <> [] -> all_space ws -> SplitAt (x ++ ws ++ y) (ps ++ qs).
Proof.
  intros Hx Hy. induction Hx as [x Hno|l ws' r ps Hl Hne' Hws' Hr Hno Hsplit IH];
    intros Hend Hup Hne Hws.
  - apply SplitAt_cut; assumption.
  - replace ((l ++ ws' ++ r) ++ ws ++ y) with (l ++ ws' ++ (r ++ ws ++ y))
      by (rewrite <- !app_assoc; reflexivity).
    simpl. apply SplitAt_cut; try assumption.
    + destruct Hr as (u & r' & -> & Hu). exists u, (r' ++ ws ++ y).
      split; [reflexivity|exact Hu].
    + apply IH; try assumption.
      apply (ends_sentence_suffix (l ++ ws')); [|apply starts_upper_nonempty, Hr].
      rewrite <- app_assoc. exact Hend.
Qed.

(** X5. When a first part ends, white space aside, with one of [. ! ?] and a
    second part starts, white space aside, with a letter of [A-Z], the text
    made of the two with white space between them has the sentences of the
    first followed by those of the second, and likewise for the records. *)
Theorem analyze_two_parts (a b ws : str) :
  ends_sentence (strip a) -> starts_upper (strip b) -> ws <> [] -> all_space ws ->
  split_sentences (a ++ ws ++ b) = split_sentences a ++ split_sentences b /\
  forall lower cats,
    analyze_policy lower (a ++ ws ++ b) cats
    = analyze_policy lower a cats ++ analyze_policy lower b cats.
Proof.
  intros Ha Hb Hne Hws.
  assert (Hca : ends_sentence (cleaned a)).
  { exact (Collapsed_ends _ _ (collapse_Collapsed (strip a)) Ha). }
  assert (Hcb : starts_upper (cleaned b)).
  { exact (Collapsed_starts _ _ (collapse_Collapsed (strip b)) Hb). }
  assert (Hsplit : split_sentences (a ++ ws ++ b)
                   = split_sentences a ++ split_sentences b).
  { rewrite (split_sentences_pieces a) by (apply ends_sentence_nonempty, Hca).
    rewrite (split_sentences_pieces b) by (apply starts_upper_nonempty, Hcb).
    rewrite split_sentences_pieces;
      rewrite (cleaned_two_parts a ws b Ha Hb Hne Hws).
    - symmetry. apply SplitAt_unique.
      apply (SplitAt_app (cleaned a) [space] (cleaned b));
        try apply re_split_SplitAt; try assumption; [discriminate|].
      constructor; [reflexivity|constructor].
    - destruct (cleaned a); discriminate. }
  split; [exact Hsplit|]. intros lower cats.
  rewrite !analyze_policy_records, Hsplit. apply flat_map_app.
Qed.

Lemma analyze_two_parts_witness :
  split_sentences (codes " We keep data. " ++ [10] ++ codes "We sell it.")
  = split_sentences (codes " We keep data. ") ++ split_sentences (codes "We sell it.") /\
  forall lower cats,
    analyze_policy lower (codes " We keep data. " ++ [10] ++ codes "We sell it.") cats
    = analyze_policy lower (codes " We keep data. ") cats
      ++ analyze_policy lower (codes "We sell it.") cats.
Proof.
  apply analyze_two_parts.
  - exists (codes "We keep data"), 46. split; reflexivity.
  - exists 87, (codes "e sell it."). split; reflexivity.
  - discriminate.
  - repeat constructor.
Defined.

(** ** The categories of a record *)

(** X6. With a table whose keys are distinct, the categories of a record
    are distinct, and each is a category of the table that has at least one
    keyword. *)
Theorem record_categories (lower : str -> str) (text : str) (cats : dict (list str))
    (sentence : str) (matched : list str) :
  NoDup (keys cats) ->
  (sentence, matched) ∈ analyze_policy lower text cats ->
  NoDup matched /\
  forall cat, cat ∈ matched -> exists keywords, (cat, keywords) ∈ cats /\ keywords <> [].
Proof.
  intros Hnd H. apply analyze_policy_elem in H as (_ & -> & _). split.
  - exact (sublist_NoDup _ _ Hnd (matched_categories_sublist _ _)).
  - intros cat Hc. apply matched_categories_elem in Hc as (kws & Hin & Hany).
    exists kws. split; [exact Hin|]. intros ->. discriminate.
Qed.

Lemma record_categories_witness :
  NoDup [codes "Location"] /\
  forall cat, cat ∈ [codes "Location"] ->
    exists keywords, (cat, keywords) ∈ categories /\ keywords <> [].
Proof.
  apply (record_categories (map lower_ascii) example_gps categories example_gps).
  - apply (bool_decide_unpack _). vm_compute. exact I.
  - vm_compute. repeat constructor.
Defined.

Lemma empty_keyword_matches lowered cats cat keywords :
  (cat, keywords) ∈ cats -> [] ∈ keywords -> cat ∈ matched_categories lowered cats.
Proof.
  intros Hin Hkw. apply matched_categories_elem. exists keywords.
  split; [exact Hin|]. apply any_keyword. exists []. split; [exact Hkw|].
  exists [], lowered. reflexivity.
Qed.

(** X7. The empty string occurs in every string: a category that has the
    empty keyword is reported for every sentence of every text, so no
    sentence is dropped. *)
Theorem empty_keyword_flags_all (lower : str -> str) (text : str)
    (cats : dict (list str)) (cat : str) (keywords : list str) :
  (cat, keywords) ∈ cats -> [] ∈ keywords ->
  map fst (analyze_policy lower text cats) = split_sentences text /\
  forall sentence matched,
    (sentence, matched) ∈ analyze_policy lower text cats -> cat ∈ matched.
Proof.
  intros Hin Hkw. split.
  - rewrite analyze_policy_records.
    induction (split_sentences text) as [|s l IH]; simpl; [reflexivity|].
    rewrite map_app, IH. unfold record_of.
    pose proof (empty_keyword_matches (lower s) cats cat keywords Hin Hkw) as Hm.
    destruct (matched_categories (lower s) cats); [inversion Hm|reflexivity].
  - intros sentence matched H. apply analyze_policy_elem in H as (_ & -> & _).
    exact (empty_keyword_matches _ _ _ _ Hin Hkw).
Qed.

Lemma empty_keyword_flags_all_witness :
  map fst (analyze_policy (map lower_ascii) (codes "Hello. Bye")
             [(codes "Any", [codes "x"; []])])
  = split_sentences (codes "Hello. Bye") /\
  forall sentence matched,
    (sentence, matched) ∈ analyze_policy (map lower_ascii) (codes "Hello. Bye")
                             [(codes "Any", [codes "x"; []])] ->
    codes "Any" ∈ matched.
Proof.
  apply (empty_keyword_flags_all _ _ _ (codes "Any") [codes "x"; []]).
  - repeat constructor.
  - repeat constructor.
Defined.

Lemma substring_Forall (P : char -> Prop) kw s :
  substring kw s -> Forall P s -> Forall P kw.
Proof.
  intros (pre & post & ->) H. apply Forall_app in H as [_ H].
  apply Forall_app in H as [H _]. exact H.
Qed.

(** X8. Keywords are compared with the lowered sentence: when the lowering
    leaves no letter of [A-Z], a category whose keywords all hold such a
    letter is in no record. *)
Theorem capital_keywords_never_match (lower : str -> str) (text : str)
    (cats : dict (list str)) (cat : str) (keywords : list str) :
  (forall s, Forall (fun c => is_upper c = false) (lower s)) ->
  NoDup (keys cats) ->
  (cat, keywords) ∈ cats ->
  Forall (fun kw => Exists (fun c => is_upper c = true) kw) keywords ->
  Forall (fun record => cat ∉ snd record) (analyze_policy lower text cats).
Proof.
  intros Hlow Hnd Hin Hup. apply Forall_forall. intros [sentence matched] H Hc.
  simpl in Hc. apply analyze_policy_elem in H as (_ & -> & _).
  apply matched_categories_elem in Hc as (kws & Hin' & Hany).
  rewrite <- (keys_functional cats cat keywords kws Hnd Hin Hin') in Hany.
  apply any_keyword in Hany as (kw & Hkw & Hsub).
  rewrite Forall_forall in Hup. specialize (Hup kw Hkw).
  apply (substring_Forall _ _ _ Hsub) in Hlow.
  apply Exists_exists in Hup as (c & Hc & Hcu).
  rewrite Forall_forall in Hlow. specialize (Hlow c Hc). congruence.
Qed.

Lemma lower_ascii_no_upper s : Forall (fun c => is_upper c = false) (map lower_ascii s).
Proof.
  apply Forall_forall. intros c Hc. apply list_elem_of_In, in_map_iff in Hc as (x & <- & _).
  unfold lower_ascii. destruct (is_upper x) eqn:E; [|exact E].
  unfold is_upper in *. rewrite andb_true_iff, !N.leb_le in E.
  rewrite andb_false_iff, !N.leb_gt. lia.
Qed.

Lemma capital_keywords_never_match_witness :
  Forall (fun record => codes "Location" ∉ snd record)
    (analyze_policy (map lower_ascii) (codes "Your GPS is on.")
       [(codes "Location", [codes "GPS"]); (codes "Status", [codes "is on"])]).
Proof.
  apply (capital_keywords_never_match (map lower_ascii) (codes "Your GPS is on.")
           [(codes "Location", [codes "GPS"]); (codes "Status", [codes "is on"])]
           (codes "Location") [codes "GPS"]).
  - exact lower_ascii_no_upper.
  - apply (bool_decide_unpack _). vm_compute. exact I.
  - repeat constructor.
  - repeat constructor.
Defined.

Lemma sentence_fixed text s : s ∈ split_sentences text -> split_sentences s = [s].
Proof.
  intros Hin. destruct (cleaned text) as [|c t] eqn:E.
  - rewrite split_sentences_blank in Hin by exact E. inversion Hin.
  - assert (Hne : cleaned text <> []) by (rewrite E; discriminate).
    rewrite split_sentences_pieces in Hin by exact Hne.
    pose proof (cleaned_pieces text Hne) as Hall. rewrite Forall_forall in Hall.
    destruct (Hall s Hin) as (H1 & H2 & H3 & H4).
    assert (Ec : cleaned s = s).
    { unfold cleaned. rewrite strip_id by exact H2. apply Spaced_collapse, H3. }
    rewrite split_sentences_pieces by (rewrite Ec; exact H1).
    rewrite Ec. apply no_boundary_split, H4.
Qed.

(** X9. Analysing the sentence of a record on its own gives that record and
    nothing else. *)
Theorem analyze_record_again (lower : str -> str) (text : str)
    (cats : dict (list str)) (sentence : str) (matched : list str) :
  (sentence, matched) ∈ analyze_policy lower text cats ->
  analyze_policy lower sentence cats = [(sentence, matched)].
Proof.
  intros H. apply analyze_policy_elem in H as (Hs & -> & Hne).
  rewrite analyze_policy_records, (sentence_fixed text sentence Hs). simpl.
  unfold record_of. destruct (matched_categories (lower sentence) cats); [congruence|].
  reflexivity.
Qed.

Lemma analyze_record_again_witness :
  analyze_policy (map lower_ascii) example_gps categories
  = [(example_gps, [codes "Location"])].
Proof.
  apply (analyze_record_again (map lower_ascii)
           (codes "Hello there. " ++ example_gps) categories).
  vm_compute. repeat constructor.
Defined.

Lemma matched_categories_app lowered cats cats' :
  matched_categories lowered (cats ++ cats')
  = matched_categories lowered cats ++ matched_categories lowered cats'.
Proof. unfold matched_categories. rewrite List.filter_app, map_app. reflexivity. Qed.

(** X10. Adding categories at the end of the table loses nothing: every
    record stays, with the categories it had, followed by those of the
    added categories that match. *)
Theorem extend_table (lower : str -> str) (text : str)
    (cats more : dict (list str)) (sentence : str) (matched : list str) :
  (sentence, matched) ∈ analyze_policy lower text cats ->
  (sentence, matched ++ matched_categories (lower sentence) more)
    ∈ analyze_policy lower text (cats ++ more).
Proof.
  intros H. apply analyze_policy_elem in H as (Hs & -> & Hne).
  apply analyze_policy_elem. split; [exact Hs|].
  rewrite matched_categories_app. split; [reflexivity|].
  intros E. apply app_eq_nil in E as [E _]. contradiction.
Qed.

Lemma extend_table_witness :
  (example_gps,
   [codes "Location"]
   ++ matched_categories (map lower_ascii example_gps) [(codes "Ads", [codes "ads"])])
    ∈ analyze_policy (map lower_ascii) example_gps
        (categories ++ [(codes "Ads", [codes "ads"])]).
Proof.
  apply (extend_table (map lower_ascii) example_gps categories).
  vm_compute. repeat constructor.
Defined.

(** ** The categories main passes on *)

Lemma unique_fold cats : forall seen,
  fold_left unique_step cats (keep_first seen) = keep_first (seen ++ cats).
Proof.
  induction cats as [|c cats IH]; intros seen; simpl.
  - rewrite app_nil_r. reflexivity.
  - replace (unique_step (keep_first seen) c) with (keep_first (seen ++ [c])).
    + rewrite IH, <- app_assoc. reflexivity.
    + rewrite keep_first_snoc. unfold unique_step.
      destruct (decide (c ∈ seen)) as [H|H];
        destruct (decide (c ∈ keep_first seen)) as [H'|H']; try reflexivity.
      * exfalso. apply H', keep_first_elem, H.
      * exfalso. apply H, keep_first_elem, H'.
Qed.

Lemma unique_records_fold (results : list (str * list str)) : forall seen,
  fold_left (fun unique record => fold_left unique_step (snd record) unique)
    results (keep_first seen)
  = keep_first (seen ++ concat (map snd results)).
Proof.
  induction results as [|[s m] results IH]; intros seen; simpl.
  - rewrite app_nil_r. reflexivity.
  - rewrite unique_fold, IH, <- app_assoc. reflexivity.
Qed.

Lemma unique_categories_keep_first (results : list (str * list str)) :
  unique_categories results = keep_first (concat (map snd results)).
Proof. exact (unique_records_fold results []). Qed.

(** X11. The categories [main] collects from the records are the
    categories of all the records, each once, in the order in which they
    first appear. *)
Theorem unique_categories_spec (results : list (str * list str)) :
  unique_categories results = keep_first (concat (map snd results)) /\
  NoDup (unique_categories results) /\
  forall cat,
    cat ∈ unique_categories results
    <-> exists sentence matched, (sentence, matched) ∈ results /\ cat ∈ matched.
Proof.
  rewrite unique_categories_keep_first. split; [reflexivity|].
  split; [apply keep_first_NoDup|]. intros cat.
  rewrite keep_first_elem, list_elem_of_In, in_concat. split.
  - intros (m & Hm & Hc). apply in_map_iff in Hm as ([s m'] & <- & Hin).
    exists s, m'. split; apply list_elem_of_In; assumption.
  - intros (s & m & Hin & Hc). exists m. split; [|apply list_elem_of_In, Hc].
    apply in_map_iff. exists (s, m). split; [reflexivity|apply list_elem_of_In, Hin].
Qed.

(** X12. [get_recommendations] is documented for distinct categories, and
    [main] passes distinct ones; the removal of the duplicates by [main]
    does not change the recommendations. *)
Theorem recommendations_of_records (results : list (str * list str)) :
  NoDup (unique_categories results) /\
  get_recommendations (unique_categories results)
  = get_recommendations (concat (map snd results)).
Proof.
  rewrite unique_categories_keep_first. split; [apply keep_first_NoDup|].
  unfold get_recommendations. rewrite !dedup_loop_keep_first, !collect_recs_concat.
  symmetry. apply keep_first_lookups.
Qed.

(** ** More on get_recommendations *)

(** X13. The recommendations for more categories start with the
    recommendations for the first ones; the later categories add those of
    their recommendations that are new. *)
Theorem get_recommendations_app (cats more : list str) :
  get_recommendations (cats ++ more)
  = get_recommendations cats
    ++ filter (fun rec => rec ∉ get_recommendations cats) (get_recommendations more).
Proof.
  unfold get_recommendations. rewrite !dedup_loop_keep_first, !collect_recs_concat.
  rewrite map_app, concat_app, keep_first_app. f_equal.
  apply list_filter_iff. intros rec. rewrite keep_first_elem. reflexivity.
Qed.

Lemma dict_get_cases {V} (d : dict V) k default :
  (exists v, (k, v) ∈ d /\ dict_get d k default = v)
  \/ ((k ∉ keys d) /\ dict_get d k default = default).
Proof.
  unfold keys. induction d as [|[k0 v0] d IH]; simpl.
  - right. split; [apply not_elem_of_nil|reflexivity].
  - destruct (decide (k0 = k)) as [->|Hne].
    + left. exists v0. split; [left|reflexivity].
    + destruct IH as [(v & Hin & E)|[Hk E]].
      * left. exists v. split; [right; exact Hin|exact E].
      * right. split; [|exact E]. apply not_elem_of_cons. split; [congruence|exact Hk].
Qed.

(** X14. A string is recommended exactly when it is a recommendation of one
    of the given categories in the table, and the recommendations come in
    the order of the looked-up lists put end to end. *)
Theorem get_recommendations_elem (cats : list str) :
  (forall rec,
     rec ∈ get_recommendations cats
     <-> exists cat recs,
           cat ∈ cats /\ (cat, recs) ∈ category_recommendations /\ rec ∈ recs) /\
  sublist (get_recommendations cats)
    (concat (map (fun c => dict_get category_recommendations c []) cats)).
Proof.
  unfold get_recommendations. rewrite dedup_loop_keep_first, collect_recs_concat.
  split; [|apply keep_first_sublist]. intros rec.
  rewrite keep_first_elem, list_elem_of_In, in_concat. split.
  - intros (l & Hl & Hr). apply in_map_iff in Hl as (c & <- & Hc).
    destruct (dict_get_cases category_recommendations c []) as [(v & Hin & E)|[_ E]].
    + exists c, v. rewrite E in Hr.
      split; [apply list_elem_of_In, Hc|]. split; [exact Hin|apply list_elem_of_In, Hr].
    + rewrite E in Hr. destruct Hr.
  - intros (c & recs & Hc & Hin & Hr). exists recs. split; [|apply list_elem_of_In, Hr].
    apply in_map_iff. exists c. split; [|apply list_elem_of_In, Hc].
    apply dict_get_elem; [apply keys_category_recommendations_NoDup|exact Hin].
Qed.

(** ** The two tables together *)

Lemma table_lists_disjoint (d : dict (list str)) k1 v1 k2 v2 :
  NoDup (concat (map snd d)) -> (k1, v1) ∈ d -> (k2, v2) ∈ d -> k1 <> k2 ->
  forall x, x ∈ v1 -> x ∉ v2.
Proof.
  induction d as [|[k v] d IH]; simpl; intros Hnd H1 H2 Hne x Hx1 Hx2.
  - inversion H1.
  - apply NoDup_app in Hnd as (_ & Hdis & Hnd).
    assert (Hsub : forall k' v', (k', v') ∈ d -> forall y, y ∈ v' -> y ∈ concat (map snd d)).
    { intros k' v' Hin y Hy. apply list_elem_of_In, in_concat. exists v'.
      split; [|apply list_elem_of_In, Hy]. apply in_map_iff. exists (k', v').
      split; [reflexivity|apply list_elem_of_In, Hin]. }
    apply elem_of_cons in H1 as [H1|H1], H2 as [H2|H2].
    + congruence.
    + injection H1 as _ ->. exact (Hdis x Hx1 (Hsub _ _ H2 x Hx2)).
    + injection H2 as _ ->. exact (Hdis x Hx2 (Hsub _ _ H1 x Hx1)).
    + exact (IH Hnd H1 H2 Hne x Hx1 Hx2).
Qed.

Lemma table_list_NoDup (d : dict (list str)) k v :
  NoDup (concat (map snd d)) -> (k, v) ∈ d -> NoDup v.
Proof.
  induction d as [|[k0 v0] d IH]; simpl; intros Hnd Hin.
  - inversion Hin.
  - apply NoDup_app in Hnd as (Hv & _ & Hnd).
    apply elem_of_cons in Hin as [Hin|Hin]; [injection Hin as _ ->; exact Hv|].
    exact (IH Hnd Hin).
Qed.

Lemma lookups_NoDup (d : dict (list str)) cats :
  NoDup (keys d) -> NoDup (concat (map snd d)) -> NoDup cats ->
  NoDup (concat (map (fun c => dict_get d c []) cats)).
Proof.
  intros Hk Hd. induction 1 as [|c cats Hc Hnd IH]; simpl; [constructor|].
  apply NoDup_app. split; [|split; [|exact IH]].
  - destruct (dict_get_cases d c []) as [(v & Hin & ->)|[_ ->]]; [|constructor].
    exact (table_list_NoDup d c v Hd Hin).
  - intros x Hx Hx'. apply list_elem_of_In, in_concat in Hx' as (l & Hl & Hxl).
    apply in_map_iff in Hl as (c' & <- & Hc').
    destruct (dict_get_cases d c []) as [(v & Hin & E)|[_ E]]; rewrite E in Hx;
      [|inversion Hx].
    destruct (dict_get_cases d c' []) as [(v' & Hin' & E')|[_ E']]; rewrite E' in Hxl;
      [|destruct Hxl].
    assert (Hne : c <> c') by (intros ->; apply Hc, list_elem_of_In, Hc').
    exact (table_lists_disjoint d c v c' v' Hd Hin Hin' Hne x Hx
             (proj2 (list_elem_of_In _ _) Hxl)).
Qed.

Lemma recommendations_all_distinct : NoDup (concat (map snd category_recommendations)).
Proof. apply (bool_decide_unpack _). vm_compute. exact I. Qed.

Lemma two_recommendations_each :
  Forall (fun c => length (dict_get category_recommendations c []) = 2%nat)
    (keys categories).
Proof. repeat constructor. Qed.

Lemma lookups_length cats :
  Forall (fun c => c ∈ keys categories) cats ->
  length (concat (map (fun c => dict_get category_recommendations c []) cats))
  = (2 * length cats)%nat.
Proof.
  induction 1 as [|c cats Hc _ IH]; cbn [map concat]; [reflexivity|].
  rewrite length_app, IH. pose proof two_recommendations_each as H2.
  rewrite Forall_forall in H2. rewrite (H2 c Hc). cbn [length]. lia.
Qed.

Lemma flagged_in_table lower text :
  Forall (fun c => c ∈ keys categories)
    (unique_categories (analyze_policy lower text categories)).
Proof.
  apply Forall_forall. intros c Hc. rewrite unique_categories_keep_first in Hc.
  apply keep_first_elem, list_elem_of_In, in_concat in Hc as (m & Hm & Hc).
  apply in_map_iff in Hm as ([s m'] & <- & Hin). simpl in Hc.
  apply list_elem_of_In, analyze_policy_elem in Hin as (_ & -> & _).
  apply list_elem_of_In in Hc.
  exact (elem_of_sublist _ _ _ Hc (matched_categories_sublist _ _)).
Qed.

Lemma flagged_lookups_NoDup (lower : str -> str) (text : str) :
  NoDup (concat (map (fun c => dict_get category_recommendations c [])
                   (unique_categories (analyze_policy lower text categories)))).
Proof.
  apply lookups_NoDup.
  - apply keys_category_recommendations_NoDup.
  - apply recommendations_all_distinct.
  - rewrite unique_categories_keep_first. apply keep_first_NoDup.
Qed.

(** X15. With the tables of the program, whatever the text, every category
    that is flagged brings its two recommendations: the recommendations are
    the lists of the flagged categories put end to end, in the order in
    which the categories first appear, and nothing is removed as a
    duplicate. *)
Theorem flagged_categories_advice (lower : str -> str) (text : str) :
  get_recommendations (unique_categories (analyze_policy lower text categories))
  = concat (map (fun c => dict_get category_recommendations c [])
              (unique_categories (analyze_policy lower text categories))) /\
  length (get_recommendations
            (unique_categories (analyze_policy lower text categories)))
  = (2 * length (unique_categories (analyze_policy lower text categories)))%nat.
Proof.
  assert (E : get_recommendations
                (unique_categories (analyze_policy lower text categories))
              = concat (map (fun c => dict_get category_recommendations c [])
                          (unique_categories (analyze_policy lower text categories)))).
  { unfold get_recommendations. rewrite dedup_loop_keep_first, collect_recs_concat.
    apply keep_first_id, flagged_lookups_NoDup. }
  split; [exact E|]. rewrite E. apply lookups_length, flagged_in_table.
Qed.

(** ** prompt_for_text *)

Lemma strip_nil_iff s : strip s = [] <-> nonws s = [].
Proof.
  split.
  - intros H. rewrite <- nonws_strip, H. reflexivity.
  - intros H. destruct (strip s) as [|c t] eqn:E; [reflexivity|]. exfalso.
    destruct (strip_trimmed s) as [Hok _]. rewrite <- nonws_strip in H.
    apply (hd_ok_nonempty_nonws (strip s) Hok); [rewrite E; discriminate|exact H].
Qed.

Lemma blank_iff s : all_space s <-> strip s = [].
Proof.
  rewrite strip_nil_iff. split; [apply nonws_all_space|apply nonws_nil_all_space].
Qed.

Lemma lstrip_char_split x s :
  exists k, s = repeat x k ++ lstrip_char x s.
Proof.
  induction s as [|c s (k & IH)]; simpl.
  - exists O. reflexivity.
  - destruct (c =? x) eqn:E.
    + apply N.eqb_eq in E as ->. exists (S k). simpl. congruence.
    + exists O. reflexivity.
Qed.

Lemma rstrip_char_split x s :
  exists k, s = rstrip_char x s ++ repeat x k.
Proof.
  destruct (lstrip_char_split x (rev s)) as (k & E). exists k.
  unfold rstrip_char. rewrite <- (rev_involutive s) at 1. rewrite E at 1.
  rewrite rev_app_distr, rev_repeat. reflexivity.
Qed.

Lemma nonws_repeat_newline k : nonws (repeat newline k) = [].
Proof. induction k as [|k IH]; simpl; [reflexivity|exact IH]. Qed.

Lemma nonws_rstrip_newline s : nonws (rstrip_char newline s) = nonws s.
Proof.
  destruct (rstrip_char_split newline s) as (k & E). rewrite E at 2.
  rewrite nonws_app, nonws_repeat_newline, app_nil_r. reflexivity.
Qed.

Lemma rstrip_char_snoc x s : rstrip_char x (s ++ [x]) = rstrip_char x s.
Proof.
  unfold rstrip_char. rewrite rev_app_distr. simpl. rewrite N.eqb_refl. reflexivity.
Qed.

Lemma lstrip_char_id x s : x ∉ s -> lstrip_char x s = s.
Proof.
  destruct s as [|c s]; simpl; [reflexivity|]. intros H.
  apply not_elem_of_cons in H as [H _]. apply not_eq_sym, N.eqb_neq in H.
  rewrite H. reflexivity.
Qed.

Lemma rstrip_char_id x s : x ∉ s -> rstrip_char x s = s.
Proof.
  intros H. unfold rstrip_char. rewrite lstrip_char_id; [apply rev_involutive|].
  intros Hin. apply H. apply list_elem_of_In, in_rev, list_elem_of_In, Hin.
Qed.

Lemma read_lines_stop before blank after :
  Forall (fun line => ~ all_space line) before -> all_space blank ->
  read_lines (before ++ blank :: after) = map (rstrip_char newline) before.
Proof.
  intros Hb Hblank. induction Hb as [|line before Hline _ IH]; simpl.
  - apply blank_iff in Hblank. rewrite Hblank. reflexivity.
  - destruct (strip line) eqn:E; simpl.
    + exfalso. apply Hline, blank_iff, E.
    + rewrite IH. reflexivity.
Qed.

Lemma read_lines_all lines :
  Forall (fun line => ~ all_space line) lines ->
  read_lines lines = map (rstrip_char newline) lines.
Proof.
  induction 1 as [|line lines Hline _ IH]; simpl; [reflexivity|].
  destruct (strip line) eqn:E; simpl.
  - exfalso. apply Hline, blank_iff, E.
  - rewrite IH. reflexivity.
Qed.

(** X16. [prompt_for_text] reads up to the first blank line: the text it
    returns is the one it returns for the lines before that line, and the
    lines after it are not looked at. *)
Theorem prompt_stops_at_blank (before after : list str) (blank : str) :
  Forall (fun line => ~ all_space line) before -> all_space blank ->
  prompt_for_text (before ++ blank :: after) = prompt_for_text before /\
  prompt_for_text (before ++ blank :: after)
  = join [newline] (map (rstrip_char newline) before).
Proof.
  intros Hb Hblank. unfold prompt_for_text.
  rewrite (read_lines_stop before blank after Hb Hblank), (read_lines_all before Hb).
  split; reflexivity.
Qed.

Lemma prompt_stops_at_blank_witness :
  prompt_for_text ([codes "We keep data." ++ [10]] ++ [32; 10] :: [codes "ignored"])
  = prompt_for_text [codes "We keep data." ++ [10]] /\
  prompt_for_text ([codes "We keep data." ++ [10]] ++ [32; 10] :: [codes "ignored"])
  = join [newline] (map (rstrip_char newline) [codes "We keep data." ++ [10]]).
Proof.
  apply prompt_stops_at_blank.
  - constructor; [|constructor]. intros H. apply blank_iff in H. discriminate.
  - repeat constructor.
Defined.

(** X17. What is typed comes back: for lines that are not blank, each typed
    with its line feed and followed by a blank line, [prompt_for_text]
    returns the lines joined by line feeds. *)
Theorem prompt_returns_typed (typed rest : list str) (blank : str) :
  Forall (fun line => ~ all_space line /\ newline ∉ line) typed -> all_space blank ->
  prompt_for_text (map (fun line => line ++ [newline]) typed ++ blank :: rest)
  = join [newline] typed.
Proof.
  intros Ht Hblank. unfold prompt_for_text. rewrite read_lines_stop.
  - f_equal. rewrite map_map. induction Ht as [|line typed [_ Hnl] _ IH]; simpl; [reflexivity|].
    rewrite rstrip_char_snoc, rstrip_char_id by exact Hnl. rewrite IH. reflexivity.
  - apply Forall_forall. intros l Hl.
    apply list_elem_of_In, in_map_iff in Hl as (line & <- & Hline).
    rewrite Forall_forall in Ht. destruct (Ht line (proj2 (list_elem_of_In _ _) Hline)) as [Hnb _].
    intros Hsp. apply Hnb. apply Forall_app in Hsp as [Hsp _]. exact Hsp.
  - exact Hblank.
Qed.

Lemma prompt_returns_typed_witness :
  prompt_for_text
    (map (fun line => line ++ [newline]) [codes "We keep data."; codes "We sell it."]
     ++ [newline] :: [codes "ignored"])
  = join [newline] [codes "We keep data."; codes "We sell it."].
Proof.
  apply prompt_returns_typed.
  - repeat constructor;
      try (intros H; apply blank_iff in H; discriminate);
      try (intros H; apply list_elem_of_In in H; vm_compute in H;
           repeat (destruct H as [H|H]; [discriminate|]); exact H).
  - repeat constructor.
Defined.

Lemma prompt_blank_iff stdin :
  strip (prompt_for_text stdin) = [] <-> read_lines stdin = [].
Proof.
  unfold prompt_for_text. split; [|intros ->; reflexivity].
  intros H. destruct stdin as [|line rest]; [reflexivity|]. simpl in *.
  destruct (strip line) as [|c t] eqn:E; [reflexivity|]. exfalso. simpl in H.
  apply strip_nil_iff in H.
  assert (Hl : nonws (rstrip_char newline line) <> []).
  { rewrite nonws_rstrip_newline. intros Hn. apply strip_nil_iff in Hn. congruence. }
  destruct (read_lines rest).
  - exact (Hl H).
  - rewrite nonws_app in H. apply app_eq_nil in H as [H _]. exact (Hl H).
Qed.

Lemma read_lines_nil_iff stdin :
  read_lines stdin = []
  <-> stdin = [] \/ exists line rest, stdin = line :: rest /\ all_space line.
Proof.
  destruct stdin as [|line rest]; simpl.
  - split; [left; reflexivity|reflexivity].
  - destruct (strip line) eqn:E; simpl.
    + split; [|reflexivity]. intros _. right. exists line, rest.
      split; [reflexivity|apply blank_iff, E].
    + split; [discriminate|]. intros [H|(l & r & H & Hsp)]; [discriminate|].
      injection H as <- _. apply blank_iff in Hsp. congruence.
Qed.

(** ** main *)

(** X18. Without a file (no [--file], or an empty path), [main] says that no
    text was provided exactly when nothing was typed before the first blank
    line; otherwise it reports on the text typed. *)
Theorem main_without_file (lower : str -> str) (load : str -> loaded)
    (stdin : list str) :
  main lower (Some []) load stdin = main lower None load stdin /\
  (stdin = [] \/ (exists line rest, stdin = line :: rest /\ all_space line) ->
   main lower None load stdin = Some [msg_asked; msg_no_text]) /\
  (forall line rest,
     stdin = line :: rest -> ~ all_space line ->
     main lower None load stdin
     = Some (msg_asked :: report lower (prompt_for_text stdin))).
Proof.
  split; [reflexivity|]. split.
  - intros H. apply read_lines_nil_iff, prompt_blank_iff in H.
    unfold main. rewrite H. reflexivity.
  - intros line rest E Hline. unfold main.
    destruct (strip (prompt_for_text stdin)) eqn:Es; [|reflexivity]. exfalso.
    apply prompt_blank_iff, read_lines_nil_iff in Es as [Es|(l & r & Es & Hsp)].
    + congruence.
    + rewrite E in Es. injection Es as <- _. exact (Hline Hsp).
Qed.

Lemma record_lines_length i results : length (record_lines i results) = length results.
Proof.
  revert i. induction results as [|r results IH]; intros i; simpl; [reflexivity|].
  rewrite IH. reflexivity.
Qed.

(** X19. With the tables of the program, as soon as one sentence is
    flagged the report has the section of the recommendations: after the
    header and one entry per record come the header of the recommendations
    and the recommendations of the flagged categories, two for each; when no
    sentence is flagged the report is one message. *)
Theorem report_content (lower : str -> str) (text : str) :
  (analyze_policy lower text categories = [] -> report lower text = [msg_none]) /\
  (analyze_policy lower text categories <> [] ->
   report lower text
   = [msg_found]
     ++ record_lines 1 (analyze_policy lower text categories)
     ++ msg_recommended
        :: map (fun rec => codes "- " ++ rec)
             (concat (map (fun c => dict_get category_recommendations c [])
                        (unique_categories (analyze_policy lower text categories)))) /\
   length (report lower text)
   = (2 + length (analyze_policy lower text categories)
      + 2 * length (unique_categories (analyze_policy lower text categories)))%nat).
Proof.
  unfold report. split.
  - intros ->. reflexivity.
  - intros Hne.
    assert (E : get_recommendations
                  (unique_categories (analyze_policy lower text categories))
                = concat (map (fun c => dict_get category_recommendations c [])
                            (unique_categories (analyze_policy lower text categories)))).
    { unfold get_recommendations. rewrite dedup_loop_keep_first, collect_recs_concat.
      apply keep_first_id, flagged_lookups_NoDup. }
    assert (Hlen : length (get_recommendations
                     (unique_categories (analyze_policy lower text categories)))
                   = (2 * length (unique_categories
                                    (analyze_policy lower text categories)))%nat).
    { rewrite E. apply lookups_length, flagged_in_table. }
    destruct (analyze_policy lower text categories) as [|[s m] results] eqn:Er;
      [congruence|].
    cbn [truthy negb].
    assert (Hu : unique_categories ((s, m) :: results) <> []).
    { assert (Hin : (s, m) ∈ analyze_policy lower text categories)
        by (rewrite Er; left).
      apply analyze_policy_elem in Hin as (_ & _ & Hm).
      destruct m as [|c m]; [congruence|]. intros Hnil.
      assert (Hc : c ∈ unique_categories ((s, c :: m) :: results)).
      { rewrite unique_categories_keep_first. apply keep_first_elem. simpl. left. }
      rewrite Hnil in Hc. inversion Hc. }
    destruct (get_recommendations (unique_categories ((s, m) :: results))) as [|r recs] eqn:Eg.
    + exfalso. simpl in Hlen. destruct (unique_categories ((s, m) :: results));
        [congruence|simpl in Hlen; lia].
    + cbn [truthy]. rewrite <- E. split; [reflexivity|].
      rewrite !length_app, record_lines_length. cbn [length].
      rewrite length_map. unfold str in *. cbn [length] in *. lia.
Qed.

(** ** Examples *)

Example split_sentences_example :
  split_sentences (codes "  Hello  world.   This is A. test! Ok? no. Yes  ")
  = map codes ["Hello world."; "This is A. test!"; "Ok? no."; "Yes"]%string.
Proof. vm_compute. reflexivity. Qed.

(** An abbreviation before a capital is a boundary like any other. *)
Example split_sentences_abbreviation :
  split_sentences (codes "Ask Dr. Smith about v1.2 Beta today.")
  = map codes ["Ask Dr."; "Smith about v1.2 Beta today."]%string.
Proof. vm_compute. reflexivity. Qed.

(** A line feed and a tab after the full stop are one boundary. *)
Example split_sentences_newline :
  split_sentences (codes "First line." ++ [10; 9] ++ codes "Second  line" ++ [10])
  = map codes ["First line."; "Second line"]%string.
Proof. vm_compute. reflexivity. Qed.

Example split_sentences_blank_text :
  split_sentences (codes "   ") = [].
Proof. vm_compute. reflexivity. Qed.

(** Example 1 of the specification. *)
Example example_sharing :
  analyze_policy (map lower_ascii)
    (codes "We share your data with third party partners.") categories
  = [(codes "We share your data with third party partners.", [codes "Data Sharing"])].
Proof. vm_compute. reflexivity. Qed.

(** The second example with the keyword the specification suggests. *)
Example example_gps_advertisement :
  analyze_policy (map lower_ascii)
    (codes "Your GPS location is used to show advertisement.") categories
  = [(codes "Your GPS location is used to show advertisement.",
      [codes "Advertising"; codes "Location"])].
Proof. vm_compute. reflexivity. Qed.

(** Example 4 of the specification: the first sentence has no record. *)
Example example_dropped_sentence :
  analyze_policy (map lower_ascii)
    (codes "Welcome to our app. We use encryption.") categories
  = [(codes "We use encryption.", [codes "Security"])].
Proof. vm_compute. reflexivity. Qed.

(** Example 5 of the specification. *)
Example example_security_twice :
  pipeline (map lower_ascii)
    (codes "We protect your account. Our security team reviews any breach.") categories
  = ([(codes "We protect your account.", [codes "Security"]);
      (codes "Our security team reviews any breach.", [codes "Security"])],
     dict_get category_recommendations (codes "Security") []).
Proof. vm_compute. reflexivity. Qed.

Example get_recommendations_unknown :
  get_recommendations [codes "Cookies"] = [].
Proof. vm_compute. reflexivity. Qed.

Example str_of_nat_example : map str_of_nat [0; 7; 12; 305]%nat = map codes ["0"; "7"; "12"; "305"]%string.
Proof. vm_compute. reflexivity. Qed.

Example main_file_example :
  main (map lower_ascii) (Some (codes "policy.txt"))
    (fun _ => Loaded (codes "Welcome. We use encryption.")) []
  = Some [ msg_found;
           codes "1. We use encryption." ++ [newline]
             ++ codes "   Categories: Security" ++ [newline];
           msg_recommended;
           codes "- Enable any available security features such as two"
             ++ [nb_hyphen] ++ codes "factor authentication (2FA) or passcodes within the app.";
           codes "- Keep your device and apps updated to ensure you have the latest security patches." ].
Proof. vm_compute. reflexivity. Qed.

Example main_unreadable_example :
  main (map lower_ascii) (Some (codes "missing.txt"))
    (fun _ => RaisedOSError (codes "[Errno 2] No such file or directory: 'missing.txt'")) []
  = Some [codes "Error reading file: [Errno 2] No such file or directory: 'missing.txt'"].
Proof. vm_compute. reflexivity. Qed.

(** A file of white space is analysed; it is not the case of no text. *)
Example main_blank_file_example :
  main (map lower_ascii) (Some (codes "blank.txt")) (fun _ => Loaded (codes "  ")) []
  = Some [msg_none].
Proof. vm_compute. reflexivity. Qed.

Example main_prompt_example :
  main (map lower_ascii) None (fun _ => RaisedOther)
    [codes "Nothing to see here." ++ [newline]; [newline]; codes "We sell data." ++ [newline]]
  = Some [msg_asked; msg_none].
Proof. vm_compute. reflexivity. Qed.
